(** * Kwil node core: a shallow embedding of selected subsystems

    The development follows the Go sources:
    - [node] protocol codecs and the generic response reader,
    - [node/store/memstore] the memory-backed block store,
    - [node/peers] the reconnect loop of the peer manager,
    - [internal/modules/datasets] the fee check of the dataset pipeline,
    - the mempool admission rule (only its test is part of the sources).

    Go integers are modelled as [Z] with the wrap-around written out,
    byte slices as [list byte], Go maps as stdpp's [gmap]. *)

From Stdlib Require Import ZArith Lia String.
From Stdlib.Strings Require Import Byte.
From stdpp Require Import base option list countable gmap.

Local Open Scope Z_scope.

(** ** Fixed-width integers and little-endian byte order *)

Module Bin.

(** Bytes are compared and used inside map keys. *)
#[global] Instance byte_eq_dec : EqDecision byte := Byte.byte_eq_dec.
#[global] Program Instance byte_countable : Countable byte :=
  inj_countable Byte.to_N Byte.of_N _.
Next Obligation. intros b. apply Byte.of_to_N. Qed.

(** Go's [byte(v)] conversion of an integer: the low eight bits. *)
Definition byte_of_Z (v : Z) : byte :=
  match Byte.of_N (Z.to_N (Z.land v 255)) with
  | Some b => b
  | None => x00
  end.

Definition byte_to_Z (b : byte) : Z := Z.of_N (Byte.to_N b).

(** Conversions between the integer types the messages use. *)
Definition uint64 (v : Z) : Z := v mod 2 ^ 64.
Definition uint32 (v : Z) : Z := v mod 2 ^ 32.
Definition int64 (v : Z) : Z :=
  let u := v mod 2 ^ 64 in if u <? 2 ^ 63 then u else u - 2 ^ 64.

Definition is_int64 (v : Z) : Prop := - 2 ^ 63 <= v < 2 ^ 63.
Definition is_uint64 (v : Z) : Prop := 0 <= v < 2 ^ 64.
Definition is_uint32 (v : Z) : Prop := 0 <= v < 2 ^ 32.

(** [binary.LittleEndian.PutUintN]: [b[i] = byte(v >> 8i)]. *)
Fixpoint le_put (n : nat) (v : Z) : list byte :=
  match n with
  | O => []
  | S k => byte_of_Z v :: le_put k (Z.shiftr v 8)
  end.

(** [binary.LittleEndian.UintN]: [b[0] | b[1]<<8 | ...]. *)
Fixpoint le_get (bs : list byte) : Z :=
  match bs with
  | [] => 0
  | b :: r => Z.lor (byte_to_Z b) (Z.shiftl (le_get r) 8)
  end.

Definition AppendUint64 (b : list byte) (v : Z) : list byte := b ++ le_put 8 v.
Definition Uint64 (b : list byte) : Z := le_get (take 8 b).
Definition Uint32 (b : list byte) : Z := le_get (take 4 b).

(** [copy(buf[off:], src)]: overwrite a window of [buf], never growing it. *)
Definition copy_at (off : nat) (src buf : list byte) : list byte :=
  let n := Nat.min (length src) (length buf - off) in
  take off buf ++ take n src ++ drop (off + n) buf.

(** [PutUint64(buf[off:off+8], v)] and [PutUint32(buf[off:off+4], v)]. *)
Definition PutUint64 (off : nat) (v : Z) (buf : list byte) : list byte :=
  copy_at off (le_put 8 v) buf.
Definition PutUint32 (off : nat) (v : Z) (buf : list byte) : list byte :=
  copy_at off (le_put 4 v) buf.

(** [make([]byte, n)] *)
Definition make (n : nat) : list byte := replicate n x00.

End Bin.

(** ** Package [node]: streams, the response reader and the message codecs *)

Module Node.
Import Bin.

(** Modelled from the spec: the declaration of [types.HashLen] is not part
    of the sources; the specification fixes hashes at 32 bytes. *)
Definition HashLen : nat := 32.

(** [types.Hash{}], the zero value of the array type. *)
Definition zeroHash : list byte := make HashLen.

(** Error values.  [ErrNoResponse] and [ErrNotFound] are the package's
    sentinels (declared outside the sources at hand), [New] is [errors.New],
    [Wrap] is [fmt.Errorf("..: %w", e)]. *)
Inductive error : Type :=
| EOF
| ErrUnexpectedEOF
| ErrNoResponse
| ErrNotFound
| New (msg : string)
| Wrap (msg : string) (e : error).

(** [errors.Is]: look through the wrapping. *)
Fixpoint Is (e target : error) : bool :=
  match e, target with
  | EOF, EOF | ErrUnexpectedEOF, ErrUnexpectedEOF => true
  | ErrNoResponse, ErrNoResponse | ErrNotFound, ErrNotFound => true
  | New a, New b => String.eqb a b
  | Wrap _ e', _ => Is e' target
  | _, _ => false
  end.

(** An [io.Reader], up to the first error it returns: the bytes still to be
    delivered, the error the stream reports once they are exhausted ([EOF]
    for a clean end), and whether the [Read] that delivers the last of the
    bytes already returns that error ([eager]) or only the [Read] after it
    does.  The contract of [io.Reader] allows both. *)
Record Reader : Type := mkReader {
  pending : list byte;
  final : error;
  eager : bool
}.

(** [bytes.NewReader(data)]: a [bytes.Reader] returns [io.EOF] only from the
    [Read] that finds nothing left. *)
Definition NewReader (data : list byte) : Reader := mkReader data EOF false.

(** [io.ReadFull(r, buf)]: the buffer after the call, the count, the error
    and the reader after the call.  An error that comes with the bytes that
    fill the buffer is dropped, and met again by the next read. *)
Definition ReadFull (r : Reader) (buf : list byte)
  : list byte * Z * option error * Reader :=
  let want := length buf in
  let have := length (pending r) in
  if (want <=? have)%nat then
    (take want (pending r), Z.of_nat want, None,
     mkReader (drop want (pending r)) (final r) (eager r))
  else
    (pending r ++ drop have buf, Z.of_nat have,
     Some (match final r with
           | EOF => if (have =? 0)%nat then EOF else ErrUnexpectedEOF
           | e => e
           end),
     mkReader [] (final r) (eager r)).

(** [binary.Read(r, binary.LittleEndian, &x)] for an [n]-byte integer: the
    unsigned value read, or the error of the underlying [io.ReadFull]. *)
Definition binary_Read (n : nat) (r : Reader) : (error + Z) * Reader :=
  match ReadFull r (make n) with
  | (bs, _, None, r') => (inr (le_get bs), r')
  | (_, _, Some e, r') => (inl e, r')
  end.

(** [io.LimitReader(r, limit)]: an [io.LimitedReader] returns [io.EOF] once
    [limit] bytes went through, and otherwise whatever [r.Read] returns.  So
    the error of [r] is seen when [r] has fewer than [limit] bytes, and also
    when it has exactly [limit] bytes and returns its error together with
    the last of them. *)
Definition LimitReader (r : Reader) (limit : Z) : Reader :=
  if limit <=? 0 then mkReader [] EOF false
  else if limit <? Z.of_nat (length (pending r))
       then mkReader (take (Z.to_nat limit) (pending r)) EOF false
       else if (limit =? Z.of_nat (length (pending r))) && negb (eager r)
            then mkReader (pending r) EOF false
            else r.

(** [io.ReadAll(r)]: everything up to the end; a clean end is no error. *)
Definition ReadAll (r : Reader) : list byte * option error :=
  (pending r, match final r with EOF => None | e => Some e end).

Definition noData : list byte := [x00].

Definition bytes_Equal (a b : list byte) : bool := bool_decide (a = b).

(** [readResp(rd, limit)] *)
Definition readResp (rd : Reader) (limit : Z) : list byte * option error :=
  let rd := LimitReader rd limit in
  match ReadAll rd with
  | (_, Some err) => ([], Some err)
  | (resp, None) =>
      if (length resp =? 0)%nat then ([], Some ErrNoResponse)
      else if bytes_Equal resp noData then ([], Some ErrNotFound)
      else (resp, None)
  end.

(** An [io.ReadWriter]: what a write reports, and what can be read back. *)
Record ReadWriter : Type := mkRW { write_err : option error; reply : Reader }.

(** [request(rw, reqMsg, readLimit)] *)
Definition request (rw : ReadWriter) (reqMsg : list byte) (readLimit : Z)
  : list byte * option error :=
  match write_err rw with
  | Some err => ([], Some (Wrap "resource get request failed" err))
  | None =>
      match readResp (reply rw) readLimit with
      | (_, Some err) => ([], Some (Wrap "failed to read resource get response" err))
      | (rawTx, None) => (rawTx, None)
      end
  end.

(** *** [blockAnnMsg], protocol [/kwil/blkann/1.0.0] *)
Module blockAnnMsg.

Record t : Type := mk {
  Hash : list byte;
  Height : Z;
  AppHash : list byte;
  LeaderSig : list byte
}.

(** The Go types of the fields. *)
Definition wf (m : t) : Prop :=
  length (Hash m) = HashLen /\ is_int64 (Height m) /\
  length (AppHash m) = HashLen.

Definition zero : t := mk zeroHash 0 zeroHash [].

(** [WriteTo] into a [bytes.Buffer], whose writes never fail: the buffer
    after the call, the count and the error. *)
Definition WriteTo (m : t) (w : list byte) : list byte * Z * option error :=
  let w := w ++ Hash m in
  let n := Z.of_nat (length (Hash m)) in
  let hBts := AppendUint64 [] (uint64 (Height m)) in
  let w := w ++ hBts in
  let n := n + Z.of_nat (length hBts) in
  let w := w ++ AppHash m in
  let n := n + Z.of_nat (length (AppHash m)) in
  let w := w ++ le_put 8 (uint64 (Z.of_nat (length (LeaderSig m)))) in
  let n := n + 8 in
  let w := w ++ LeaderSig m in
  let n := n + Z.of_nat (length (LeaderSig m)) in
  (w, n, None).

Definition MarshalBinary (m : t) : list byte * option error :=
  match WriteTo m [] with
  | (_, _, Some err) => ([], Some err)
  | (buf, _, None) => (buf, None)
  end.

(** [ReadFrom]: the receiver after the call, the count, the error and the
    reader after the call.  The counts of the app hash and of the signature
    are declared inside their [if] statements ([if nr, err := ...]) and are
    visible only in the error branch; the two [n += int64(nr)] that follow
    add [nr], the count of the first read, the one of the hash. *)
Definition ReadFrom (m : t) (r : Reader) : t * Z * option error * Reader :=
  match ReadFull r (Hash m) with
  | (h, nr, Some err, r) => (mk h (Height m) (AppHash m) (LeaderSig m), nr, Some err, r)
  | (h, nr, None, r) =>
      let n := nr in
      match binary_Read 8 r with
      | (inl err, r) => (mk h (Height m) (AppHash m) (LeaderSig m), n, Some err, r)
      | (inr hv, r) =>
          let height := int64 hv in
          let n := n + 8 in
          match ReadFull r (AppHash m) with
          | (a, nr', Some err, r) => (mk h height a (LeaderSig m), n + nr', Some err, r)
          | (a, _, None, r) =>
              let n := n + nr in
              match binary_Read 8 r with
              | (inl err, r) => (mk h height a (LeaderSig m), n, Some err, r)
              | (inr sigLen, r) =>
                  let n := n + 8 in
                  if sigLen >? 1000 then
                    (mk h height a (LeaderSig m), n,
                     Some (New "unexpected leader sig length"), r)
                  else
                    match ReadFull r (make (Z.to_nat sigLen)) with
                    | (s, nr', Some err, r) => (mk h height a s, n + nr', Some err, r)
                    | (s, _, None, r) =>
                        let n := n + nr in
                        (mk h height a s, n, None, r)
                    end
              end
          end
      end
  end.

Definition UnmarshalBinary (m : t) (data : list byte) : t * option error :=
  match ReadFrom m (NewReader data) with
  | (m', _, err, _) => (m', err)
  end.

End blockAnnMsg.

(** *** [blockHeightReq], protocol [/kwil/blkheight/1.0.0] *)
Module blockHeightReq.

Record t : Type := mk { Height : Z }.

Definition wf (r : t) : Prop := is_int64 (Height r).

Definition MarshalBinary (r : t) : list byte * option error :=
  (AppendUint64 [] (uint64 (Height r)), None).

Definition UnmarshalBinary (r : t) (data : list byte) : t * option error :=
  if negb (length data =? 8)%nat then (r, Some (New "unexpected data length"))
  else (mk (int64 (Uint64 data)), None).

Definition ReadFrom (r : t) (rd : Reader) : t * Z * option error * Reader :=
  match ReadFull rd (make 8) with
  | (_, n, Some err, rd) => (r, n, Some err, rd)
  | (hBts, n, None, rd) => (mk (int64 (Uint64 hBts)), n, None, rd)
  end.

End blockHeightReq.

(** *** [blockHashReq], protocol [/kwil/blk/1.0.0] *)
Module blockHashReq.

Record t : Type := mk { Hash : list byte }.

Definition wf (r : t) : Prop := length (Hash r) = HashLen.

Definition MarshalBinary (r : t) : list byte * option error := (Hash r, None).

Definition UnmarshalBinary (r : t) (data : list byte) : t * option error :=
  if negb (length data =? HashLen)%nat then (r, Some (New "invalid hash length"))
  else (mk (copy_at 0 data (Hash r)), None).

Definition ReadFrom (r : t) (rd : Reader) : t * Z * option error * Reader :=
  match ReadFull rd (Hash r) with
  | (h, n, err, rd) => (mk h, n, err, rd)
  end.

End blockHashReq.

(** *** [snapshotChunkReq], protocol [/kwil/snapchunk/1.0.0] *)
Module snapshotChunkReq.

Record t : Type := mk {
  Height : Z;
  Format : Z;
  Index : Z;
  Hash : list byte
}.

Definition wf (r : t) : Prop :=
  is_uint64 (Height r) /\ is_uint32 (Format r) /\ is_uint32 (Index r) /\
  length (Hash r) = HashLen.

Definition zero : t := mk 0 0 0 zeroHash.

(** Both 32-bit fields are written to [buf[8:12]]; the hash follows at 12. *)
Definition MarshalBinary (r : t) : list byte * option error :=
  let buf := make (8 + 4 + 4 + HashLen) in
  let buf := PutUint64 0 (Height r) buf in
  let buf := PutUint32 8 (Format r) buf in
  let buf := PutUint32 8 (Index r) buf in
  let buf := copy_at 12 (Hash r) buf in
  (buf, None).

Definition UnmarshalBinary (r : t) (data : list byte) : t * option error :=
  if negb (length data =? 8 + 4 + HashLen)%nat
  then (r, Some (New "unexpected data length"))
  else
    let height := Uint64 (take 8 data) in
    let index := Uint32 (take 4 (drop 8 data)) in
    (mk height (Format r) index (copy_at 0 (drop 12 data) (Hash r)), None).

Definition ReadFrom (r : t) (rd : Reader) : t * Z * option error * Reader :=
  let nr := 0 in
  match binary_Read 8 rd with
  | (inl err, rd) => (r, 0, Some err, rd)
  | (inr height, rd) =>
      let nr := nr + 8 in
      match binary_Read 4 rd with
      | (inl err, rd) => (mk height (Format r) (Index r) (Hash r), nr, Some err, rd)
      | (inr index, rd) =>
          let nr := nr + 4 in
          match ReadFull rd (Hash r) with
          | (h, n, err, rd) => (mk height (Format r) index h, nr + n, err, rd)
          end
      end
  end.

End snapshotChunkReq.

(** *** [snapshotReq], protocol [/kwil/snapmeta/1.0.0] *)
Module snapshotReq.

Record t : Type := mk { Height : Z; Format : Z }.

Definition wf (r : t) : Prop := is_uint64 (Height r) /\ is_uint32 (Format r).

Definition MarshalBinary (r : t) : list byte * option error :=
  let buf := make (8 + 4) in
  let buf := PutUint64 0 (Height r) buf in
  let buf := PutUint32 8 (Format r) buf in
  (buf, None).

Definition UnmarshalBinary (r : t) (data : list byte) : t * option error :=
  if negb (length data =? 8 + 4)%nat
  then (r, Some (New "unexpected data length"))
  else (mk (Uint64 (take 8 data)) (Uint32 (take 4 (drop 8 data))), None).

Definition ReadFrom (r : t) (rd : Reader) : t * Z * option error * Reader :=
  let nr := 0 in
  match binary_Read 8 rd with
  | (inl err, rd) => (r, 0, Some err, rd)
  | (inr height, rd) =>
      let nr := nr + 8 in
      match binary_Read 4 rd with
      | (inl err, rd) => (mk height (Format r), nr + 4, Some err, rd)
      | (inr format, rd) => (mk height format, nr + 4, None, rd)
      end
  end.

End snapshotReq.

(** *** The handler of protocol [/kwil/tx/1.0.0] *)

(** [txHashReq] embeds [blockHashReq] and its methods. *)
Definition newTxHashReq (hash : list byte) : blockHashReq.t := blockHashReq.mk hash.

(** What [txGetStreamHandler] asks the node for: [n.mp.Get], which returns
    nil when the mempool does not hold the transaction, and [n.bki.GetTx]. *)
Record TxSources : Type := mkTxSources {
  mp_Get : list byte -> option (list byte);
  bki_GetTx : list byte -> list byte + error
}.

(** [txGetStreamHandler(s)]: the bytes written to the stream before it is
    closed.  The results of the writes are not looked at. *)
Definition txGetStreamHandler (n : TxSources) (s : Reader) : list byte :=
  match blockHashReq.ReadFrom (newTxHashReq zeroHash) s with
  | (_, _, Some err, _) => []
  | (req, _, None, _) =>
      match mp_Get n (blockHashReq.Hash req) with
      | Some rawTx => rawTx
      | None =>
          match bki_GetTx n (blockHashReq.Hash req) with
          | inr err => noData
          | inl rawTx => rawTx
          end
      end
  end.

End Node.

(** ** Package [memstore]: the memory-backed block store *)

Module MemStore.
Import Bin.

(** [types.Hash] *)
Abbreviation Hash := (list byte).

(** Modelled from the spec: the declarations of [ktypes.Block] and
    [ktypes.TxResult] are not part of the sources; the fields are those of
    the specification's data model. *)
Record BlockHeader : Type := mkHeader {
  Version : Z;
  Height : Z;
  PrevHash : Hash;
  PrevAppHash : Hash;
  Timestamp : Z;
  MerkleRoot : Hash
}.

Record Block : Type := mkBlock {
  Header : BlockHeader;
  Txns : list (list byte);
  Signature : list byte
}.

Record TxResult : Type := mkTxResult { Code : Z; Log : string; Gas : Z }.

(** The digests the store relies on: [block.Hash()] and [types.HashBytes]. *)
Class Hasher : Type := {
  BlockHash : Block -> Hash;
  HashBytes : list byte -> Hash
}.

Record blockHashes : Type := mkHashes { hash : Hash; appHash : Hash }.

Record MemBS : Type := mkMemBS {
  idx : gmap Hash Z;
  hashes : gmap Z blockHashes;
  blocks : gmap Hash Block;
  txResults : gmap Hash (list TxResult);
  txIds : gmap Hash Hash;
  fetching : gmap Hash bool
}.

Definition NewMemBS : MemBS := mkMemBS ∅ ∅ ∅ ∅ ∅ ∅.

Inductive error : Type := ErrNotFound.

Definition Get (bs : MemBS) (h : Hash) : (Block * Hash) + error :=
  match blocks bs !! h with
  | None => inr ErrNotFound
  | Some blk =>
      match hashes bs !! Height (Header blk) with
      | None => inr ErrNotFound
      | Some hs => inl (blk, appHash hs)
      end
  end.

Definition GetByHeight (bs : MemBS) (height : Z) : (Hash * Block * Hash) + error :=
  match hashes bs !! height with
  | None => inr ErrNotFound
  | Some blkHash =>
      match blocks bs !! hash blkHash with
      | None => inr ErrNotFound
      | Some blk => inl (hash blkHash, blk, appHash blkHash)
      end
  end.

Definition Have (bs : MemBS) (blkid : Hash) : bool :=
  bool_decide (is_Some (idx bs !! blkid)).

Definition Store `{Hasher} (bs : MemBS) (block : Block) (app : Hash) : MemBS :=
  let blkHash := BlockHash block in
  mkMemBS
    (<[blkHash := Height (Header block)]> (idx bs))
    (<[Height (Header block) := mkHashes blkHash app]> (hashes bs))
    (<[blkHash := block]> (blocks bs))
    (txResults bs)
    (foldl (fun ids tx => <[HashBytes tx := blkHash]> ids) (txIds bs) (Txns block))
    (fetching bs).

Definition StoreResults (bs : MemBS) (h : Hash) (results : list TxResult) : MemBS :=
  mkMemBS (idx bs) (hashes bs) (blocks bs) (<[h := results]> (txResults bs))
    (txIds bs) (fetching bs).

Definition Results (bs : MemBS) (h : Hash) : list TxResult + error :=
  match txResults bs !! h with
  | None => inr ErrNotFound
  | Some res => inl res
  end.

Definition HaveTx (bs : MemBS) (txHash : Hash) : bool :=
  bool_decide (is_Some (txIds bs !! txHash)).

(** One iteration of the loop of [Best] over an entry of [bs.hashes]. *)
Definition Best_step (best : Z * Hash * Hash) (e : Z * blockHashes) : Z * Hash * Hash :=
  let '(bestHeight, _, _) := best in
  if e.1 >=? bestHeight then (e.1, hash e.2, appHash e.2) else best.

(** The loop of [Best] when [range bs.hashes] visits the entries in [order]. *)
Definition Best_over (order : list (Z * blockHashes)) : Z * Hash * Hash :=
  foldl Best_step (0, Node.zeroHash, Node.zeroHash) order.

(** Go leaves the iteration order of a map unspecified: any arrangement of
    the entries is an order in which [range] may visit them. *)
Definition range_order (bs : MemBS) (order : list (Z * blockHashes)) : Prop :=
  order ≡ₚ map_to_list (hashes bs).

(** [Best] along one such order. *)
Definition Best (bs : MemBS) : Z * Hash * Hash :=
  Best_over (map_to_list (hashes bs)).

(** What [Best] computes, independently of the order of iteration: a
    non-negative height that bounds every stored height, with the hashes
    stored at that height, or the zero values when nothing is stored there. *)
Definition is_best (m : gmap Z blockHashes) (r : Z * Hash * Hash) : Prop :=
  0 <= r.1.1 /\
  (forall k v, m !! k = Some v -> k <= r.1.1) /\
  match m !! r.1.1 with
  | Some v => r.1.2 = hash v /\ r.2 = appHash v
  | None => r = (0, Node.zeroHash, Node.zeroHash)
  end.

(** The closure [PreFetch] returns: [func() {}], or the one that deletes
    the reservation of [blkid]. *)
Inductive release : Type :=
| release_noop
| release_fetching (blkid : Hash).

Definition PreFetch (bs : MemBS) (blkid : Hash) : bool * release * MemBS :=
  match idx bs !! blkid with
  | Some _ => (false, release_noop, bs)
  | None =>
      if default false (fetching bs !! blkid) then (false, release_noop, bs)
      else (true, release_fetching blkid,
            mkMemBS (idx bs) (hashes bs) (blocks bs) (txResults bs) (txIds bs)
              (<[blkid := true]> (fetching bs)))
  end.

Definition run_release (rel : release) (bs : MemBS) : MemBS :=
  match rel with
  | release_noop => bs
  | release_fetching blkid =>
      mkMemBS (idx bs) (hashes bs) (blocks bs) (txResults bs) (txIds bs)
        (delete blkid (fetching bs))
  end.

(** The calls that change the store.  Each runs under the store's lock, so
    an execution with several callers is a sequence of them. *)
Inductive call : Type :=
| CallStore (block : Block) (app : Hash)
| CallStoreResults (h : Hash) (results : list TxResult)
| CallPreFetch (blkid : Hash)
| CallRelease (rel : release).

Definition exec `{Hasher} (bs : MemBS) (c : call) : MemBS :=
  match c with
  | CallStore block app => Store bs block app
  | CallStoreResults h results => StoreResults bs h results
  | CallPreFetch blkid => (PreFetch bs blkid).2
  | CallRelease rel => run_release rel bs
  end.

(** [fmt.Errorf("%w: ...", err)] around the store's error. *)
Inductive wrapped : Type :=
| Plain (e : error)
| Errorf (e : error) (msg : string).

(** [Result(hash, idx)], [idx] a [uint32]. *)
Definition Result (bs : MemBS) (h : Hash) (idx : Z) : TxResult + wrapped :=
  match txResults bs !! h with
  | None => inr (Plain ErrNotFound)
  | Some res =>
      if idx >=? Z.of_nat (length res) then inr (Errorf ErrNotFound "invalid block index")
      else match res !! Z.to_nat idx with
           | Some r => inl r
           | None => inr (Plain ErrNotFound)
           end
  end.

(** [tx.UnmarshalBinary(rawTx)] of [ktypes.Transaction], which is not part
    of the sources: a decoder into some type of transactions. *)
Class TxDecoder (Tx D : Type) : Type := {
  Transaction_UnmarshalBinary : list byte -> Tx + D
}.

(** The loop of [GetTx] over [blk.Txns]: the first transaction with the
    hash looked for, and its index. *)
Fixpoint GetTx_find `{Hasher} (txHash : Hash) (idx : nat) (txns : list (list byte))
  : option (nat * list byte) :=
  match txns with
  | [] => None
  | rawTx :: rest =>
      if bool_decide (HashBytes rawTx = txHash) then Some (idx, rawTx)
      else GetTx_find txHash (S idx) rest
  end.

(** [GetTx(txHash)]: the transaction, the height and hash of its block and
    its index in the block. *)
Definition GetTx `{Hasher} {Tx D : Type} `{TxDecoder Tx D} (bs : MemBS) (txHash : Hash)
  : (Tx * Z * Hash * Z) + (error + D) :=
  match txIds bs !! txHash with
  | None => inr (inl ErrNotFound)
  | Some blkHash =>
      match blocks bs !! blkHash with
      | None => inr (inl ErrNotFound)
      | Some blk =>
          match GetTx_find txHash 0 (Txns blk) with
          | None => inr (inl ErrNotFound)
          | Some (idx, rawTx) =>
              match Transaction_UnmarshalBinary rawTx with
              | inr err => inr (inr err)
              | inl tx =>
                  inl (tx, Height (Header blk), BlockHash blk, uint32 (Z.of_nat idx))
              end
          end
      end
  end.

End MemStore.

(** ** Package [peers]: reconnecting to a lost peer *)

Module Peers.
Import Bin.

(** [time.Duration] is an [int64] count of nanoseconds. *)
Definition Second : Z := 1000000000.
Definition Minute : Z := 60 * Second.

Definition maxRetries : nat := 500.
Definition baseReconnectDelay : Z := 2 * Second.

(** [delay := baseReconnectDelay * (1 << attempt)], capped at one minute.
    The constant 1 takes the type of the product, so both the shift and the
    product are 64-bit signed operations. *)
Definition reconnect_delay (attempt : Z) : Z :=
  let delay := int64 (baseReconnectDelay * int64 (Z.shiftl 1 attempt)) in
  if delay >? 1 * Minute then 1 * Minute else delay.

(** What the loop cannot decide by itself: whether the dial of an attempt
    succeeds, and whether the [select] after a failed attempt finds
    [pm.done] closed. *)
Record World : Type := mkWorld {
  connect_ok : nat -> bool;
  done_closed : nat -> bool
}.

Inductive event : Type :=
| Dial (attempt : nat)
| Wait (delay : Z).

Inductive outcome : Type := Reconnected | ShutDown | GaveUp.

(** The body of [for attempt := range maxRetries], from [attempt] on with
    [remaining] iterations to go. *)
Fixpoint retry_from (w : World) (attempt remaining : nat) : list event * outcome :=
  match remaining with
  | O => ([], GaveUp)
  | S rest =>
      let delay := reconnect_delay (Z.of_nat attempt) in
      if connect_ok w attempt then ([Dial attempt], Reconnected)
      else if done_closed w attempt then ([Dial attempt], ShutDown)
      else
        let '(trace, res) := retry_from w (S attempt) rest in
        (Dial attempt :: Wait delay :: trace, res)
  end.

Definition reconnectWithRetry (w : World) : list event * outcome :=
  retry_from w 0 maxRetries.

Definition is_dial (e : event) : bool :=
  match e with Dial _ => true | Wait _ => false end.

(** The number of connection attempts of a run. *)
Definition dials (trace : list event) : nat := length (List.filter is_dial trace).

(** *** Disconnect timestamps *)

Definition Hour : Z := 3600 * Second.
Definition disconnectLimit : Z := 7 * 24 * Hour.

(** The part of [PeerMan] the notifications and the sweep work on: the
    disconnect time of every peer (a [peer.ID] as a string, a [time.Time] as
    nanoseconds). *)
Record PeerMan : Type := mkPeerMan { disconnects : gmap string Z }.

(** [Connected]: the timestamp of the peer is deleted.  The check of the
    peer's protocols that runs beside it only logs. *)
Definition Connected (pm : PeerMan) (peerID : string) : PeerMan :=
  mkPeerMan (delete peerID (disconnects pm)).

(** [Disconnected] at time [now]: the timestamp is stored; unless the
    manager is shut down a reconnect task is started, and the result names
    the delay it waits before [reconnectWithRetry]: one second, three when
    the connection had been open for less than a second. *)
Definition Disconnected (pm : PeerMan) (peerID : string) (now : Z)
    (done_is_closed : bool) (sinceOpened : Z) : PeerMan * option Z :=
  let pm := mkPeerMan (<[peerID := now]> (disconnects pm)) in
  if done_is_closed then (pm, None)
  else
    let delay := Second in
    let delay := if sinceOpened <? Second then int64 (delay * 3) else delay in
    (pm, Some delay).

(** The notifications the transport sends. *)
Inductive notification : Type :=
| NotifyConnected (peerID : string)
| NotifyDisconnected (peerID : string) (now : Z) (done_is_closed : bool)
    (sinceOpened : Z).

Definition notified (e : notification) : string :=
  match e with
  | NotifyConnected p => p
  | NotifyDisconnected p _ _ _ => p
  end.

Definition notify (pm : PeerMan) (e : notification) : PeerMan :=
  match e with
  | NotifyConnected p => Connected pm p
  | NotifyDisconnected p now closed opened => (Disconnected pm p now closed opened).1
  end.

(** One tick of [removeOldPeers] at time [now]: the body of the loop over
    [pm.disconnects], which deletes the entry it visits when it is older
    than the limit and removes the peer from the peer store; the state is
    the map and the peers removed so far.  [now.Sub] saturates only outside
    the range of a [Duration], far beyond the limit, so the comparison is
    the one on the difference. *)
Definition sweep_step (now : Z) (st : gmap string Z * list string)
    (e : string * Z) : gmap string Z * list string :=
  if now - e.2 >? disconnectLimit then (delete e.1 st.1, st.2 ++ [e.1]) else st.

(** The tick when [range pm.disconnects] visits the entries in [order]. *)
Definition sweep (now : Z) (pm : PeerMan) (order : list (string * Z))
  : PeerMan * list string :=
  let '(m, removed) := foldl (sweep_step now) (disconnects pm, []) order in
  (mkPeerMan m, removed).

(** *** Known peers *)

Record PeerInfo : Type := mkPeerInfo {
  ID : string;
  Addrs : list string;
  Protos : list string
}.

(** What [ConnectedPeers] and [KnownPeers] read: the host's own ID, the
    peers of [h.Network().Peers()] and of [ps.Peers()], and the peer
    store's [Addrs] and [GetProtocols]. *)
Record Host : Type := mkHost {
  self : string;
  network_Peers : list string;
  ps_Peers : list string;
  ps_Addrs : string -> list string;
  ps_GetProtocols : string -> list string + string
}.

(** [peerInfo(ps, peerID)]; the error is left as [None]. *)
Definition peerInfo (h : Host) (peerID : string) : option PeerInfo :=
  let addrs := ps_Addrs h peerID in
  if (length addrs =? 0)%nat then None
  else match ps_GetProtocols h peerID with
       | inr _ => None
       | inl supportedProtos => Some (mkPeerInfo peerID addrs supportedProtos)
       end.

Fixpoint ConnectedPeers_loop (h : Host) (ids : list string) (peers : list PeerInfo)
  : list PeerInfo :=
  match ids with
  | [] => peers
  | peerID :: rest =>
      if bool_decide (peerID = self h) then ConnectedPeers_loop h rest peers
      else match peerInfo h peerID with
           | None => ConnectedPeers_loop h rest peers
           | Some info => ConnectedPeers_loop h rest (peers ++ [info])
           end
  end.

Definition ConnectedPeers (h : Host) : list PeerInfo :=
  ConnectedPeers_loop h (network_Peers h) [].

(** The second loop of [KnownPeers], over [ps.Peers()], with the map of the
    connected peers. *)
Fixpoint KnownPeers_loop (h : Host) (connectedPeers : gmap string bool)
    (ids : list string) (peers disconnected : list PeerInfo)
  : list PeerInfo * list PeerInfo :=
  match ids with
  | [] => (peers, disconnected)
  | peerID :: rest =>
      if bool_decide (peerID = self h)
      then KnownPeers_loop h connectedPeers rest peers disconnected
      else if default false (connectedPeers !! peerID)
      then KnownPeers_loop h connectedPeers rest peers disconnected
      else match peerInfo h peerID with
           | None => KnownPeers_loop h connectedPeers rest peers disconnected
           | Some info =>
               KnownPeers_loop h connectedPeers rest (peers ++ [info])
                 (disconnected ++ [info])
           end
  end.

(** [KnownPeers()]: all, connected, disconnected. *)
Definition KnownPeers (h : Host) : list PeerInfo * list PeerInfo * list PeerInfo :=
  let peers := ConnectedPeers h in
  let '(connectedPeers, connected) :=
    foldl (fun (st : gmap string bool * list PeerInfo) info =>
             (<[ID info := true]> st.1, st.2 ++ [info]))
      (∅, []) peers in
  let '(all, disconnected) :=
    KnownPeers_loop h connectedPeers (ps_Peers h) peers [] in
  (all, connected, disconnected).

End Peers.

(** ** Package [datasets]: pricing and spending before execution *)

Module Datasets.
Import Bin.

Inductive error : Type :=
| ErrInsufficientFee
| External (msg : string)
| Wrap (msg : string) (e : error).

Fixpoint Is (e target : error) : bool :=
  match e, target with
  | ErrInsufficientFee, ErrInsufficientFee => true
  | External a, External b => String.eqb a b
  | Wrap _ e', _ => Is e' target
  | _, _ => false
  end.

(** Modelled from the spec: the declarations of [transactions.Transaction],
    [accounts.Spend] and [engineTypes.User] are not part of the sources.  The
    records have the fields this file reads, typed as in the specification's
    data model: the fee an arbitrary-precision integer, the nonce an unsigned
    64-bit integer. *)
Record TransactionBody : Type := mkBody { Fee : Z; Nonce : Z }.
Record Signature : Type := mkSignature { Type_ : string }.
Record Transaction : Type := mkTx {
  Sig : Signature;
  Body : TransactionBody;
  Sender : list byte
}.

(** [accounts.Spend] *)
Record Spend : Type := mkSpend {
  AccountPubKey : list byte;
  Amount : Z;
  SpendNonce : Z
}.

(** [engineTypes.User] *)
Record User : Type := mkUser { PublicKey : list byte; AuthType : string }.

Record ExecutionResponse : Type := mkResp { RespFee : Z; GasUsed : Z }.

(** The collaborators of the module, none of which is part of the sources:
    the pricer (a price, or an error with a price that may be nil), the
    account store and the engine, each a state with the calls made on it. *)
Class Pricer (Schema Args : Type) : Type := {
  PriceDeploy : Schema -> Z + (option Z * error);
  PriceDrop : string -> Z + (option Z * error);
  PriceExecute : string -> string -> Args -> Z + (option Z * error)
}.

Class AccountStore (A : Type) : Type := {
  store_Spend : A -> Spend -> A * option error
}.

Class Engine (Schema Args E : Type) : Type := {
  CreateDataset : E -> Schema -> User -> E * option error;
  DropDataset : E -> string -> User -> E * option error;
  engine_Execute : E -> string -> string -> Args -> User -> E * option error
}.

Section Module_.
Context {Schema Args A E : Type}.
Context `{Pricer Schema Args} `{AccountStore A} `{Engine Schema Args E}.

(** The module with its two stores; [spends] records, in order, the calls
    made to [accountStore.Spend]. *)
Record DatasetModule : Type := mkModule {
  accountStore : A;
  spends : list Spend;
  engine : E
}.

Definition resp (fee : Z) : ExecutionResponse := mkResp fee 0.

Definition getUserIdentifier (tx : Transaction) : User :=
  mkUser (Sender tx) (Type_ (Sig tx)).

(** [u.accountStore.Spend(ctx, sp)] *)
Definition call_Spend (u : DatasetModule) (sp : Spend) : DatasetModule * option error :=
  let '(a, err) := store_Spend (accountStore u) sp in
  (mkModule a (spends u ++ [sp]) (engine u), err).

(** The message of the error also prints the two amounts. *)
Definition compareAndSpend (u : DatasetModule) (price : Z) (tx : Transaction)
  : DatasetModule * option error :=
  if Fee (Body tx) <? price
  then (u, Some (Wrap "fee is less than price" ErrInsufficientFee))
  else call_Spend u (mkSpend (Sender tx) price (int64 (Nonce (Body tx)))).

Definition Deploy (u : DatasetModule) (schema : Schema) (tx : Transaction)
  : DatasetModule * ExecutionResponse * option error :=
  match PriceDeploy schema with
  | inr (price, err) => (u, resp (default 0 price), Some err)
  | inl price =>
      match compareAndSpend u price tx with
      | (u, Some err) => (u, resp price, Some err)
      | (u, None) =>
          let identifier := getUserIdentifier tx in
          match CreateDataset (engine u) schema identifier with
          | (e, Some err) =>
              (mkModule (accountStore u) (spends u) e, resp price,
               Some (Wrap "failed to create dataset" err))
          | (e, None) => (mkModule (accountStore u) (spends u) e, resp price, None)
          end
      end
  end.

Definition Drop (u : DatasetModule) (dbid : string) (tx : Transaction)
  : DatasetModule * ExecutionResponse * option error :=
  match PriceDrop dbid with
  | inr (price, err) => (u, resp (default 0 price), Some err)
  | inl price =>
      match compareAndSpend u price tx with
      | (u, Some err) => (u, resp price, Some err)
      | (u, None) =>
          let identifier := getUserIdentifier tx in
          match DropDataset (engine u) dbid identifier with
          | (e, Some err) =>
              (mkModule (accountStore u) (spends u) e, resp price,
               Some (Wrap "failed to drop dataset" err))
          | (e, None) => (mkModule (accountStore u) (spends u) e, resp price, None)
          end
      end
  end.

Definition Execute (u : DatasetModule) (dbid action : string) (args : Args)
    (tx : Transaction) : DatasetModule * ExecutionResponse * option error :=
  match PriceExecute dbid action args with
  | inr (price, err) => (u, resp (default 0 price), Some err)
  | inl price =>
      match compareAndSpend u price tx with
      | (u, Some err) => (u, resp price, Some err)
      | (u, None) =>
          let identifier := getUserIdentifier tx in
          match engine_Execute (engine u) dbid action args identifier with
          | (e, Some err) =>
              (mkModule (accountStore u) (spends u) e, resp price,
               Some (Wrap "failed to execute action on database" err))
          | (e, None) => (mkModule (accountStore u) (spends u) e, resp price, None)
          end
      end
  end.

End Module_.

Arguments DatasetModule : clear implicits.

End Datasets.

(** ** The mempool's admission rule *)

Module Mempool.

(** Modelled from the spec: the mempool itself ([applyTransaction] and its
    state) is not part of the sources, only its test is.  The definitions
    below follow the admission algorithm of the specification step by step.
    A pending transaction is identified with its hash (two values with the
    same hash are byte-identical), a sender with its key. *)
Record Tx : Type := mkTx {
  Sender : string;
  Nonce : Z;
  Fee : Z;
  Payload : string
}.

#[global] Instance Tx_eq_dec : EqDecision Tx.
Proof. solve_decision. Defined.

(** The account as the account store has it: balance and on-chain nonce. *)
Record Account : Type := mkAccount { Balance : Z; AcctNonce : Z }.

Record mempool : Type := mkMempool {
  accountMgr : gmap string Account;
  admitted : list Tx
}.

Inductive error : Type :=
| ErrDuplicateTx
| ErrUnknownSender
| ErrStaleNonce
| ErrOutOfOrderNonce
| ErrInsufficientBalance.

(** The transactions of a sender that are in the pool. *)
Definition admitted_of (m : mempool) (s : string) : list Tx :=
  List.filter (fun t => bool_decide (Sender t = s)) (admitted m).

(** Step 2: the account view of a sender, initialised when unknown. *)
Definition account_view (m : mempool) (s : string) : Account :=
  default (mkAccount 0 0) (accountMgr m !! s).

(** How far the admitted nonces of a sender reach above its on-chain nonce. *)
Definition max_admitted_nonce_gap (m : mempool) (s : string) : Z :=
  let N := AcctNonce (account_view m s) in
  foldr (fun t gap => Z.max (Nonce t - N) gap) 0 (admitted_of m s).

Definition balance_after_prior_admitted (m : mempool) (s : string) : Z :=
  Balance (account_view m s) - foldr (fun t sum => Fee t + sum) 0 (admitted_of m s).

(** The nonce the mempool tracks for a sender: the on-chain nonce advanced
    by the admitted depth. *)
Definition tracked_nonce (m : mempool) (s : string) : Z :=
  AcctNonce (account_view m s) + max_admitted_nonce_gap m s.

(** Admission of [t], steps 1 to 7. *)
Definition applyTransaction (gasEnabled : bool) (m : mempool) (t : Tx)
  : mempool * option error :=
  let s := Sender t in
  if bool_decide (t ∈ admitted m) then (m, Some ErrDuplicateTx)
  else
    let acct := account_view m s in
    let N := AcctNonce acct in
    if gasEnabled && bool_decide (accountMgr m !! s = None)
    then (m, Some ErrUnknownSender)
    else if Nonce t <=? N then (m, Some ErrStaleNonce)
    else
      let expected := N + max_admitted_nonce_gap m s + 1 in
      if Nonce t >? expected then (m, Some ErrOutOfOrderNonce)
      else if gasEnabled && (Fee t >? balance_after_prior_admitted m s)
      then (m, Some ErrInsufficientBalance)
      else (mkMempool (accountMgr m) (admitted m ++ [t]), None).

(** [newTx] of the test: a transaction of a sender at a nonce, fee 0. *)
Definition newTx (nonce : Z) (sender : string) : Tx :=
  mkTx sender nonce 0 "random payload".

(** A pool holding, for one sender, the transactions of the test at the
    given nonces. *)
Definition pool_of (mgr : gmap string Account) (s : string) (nonces : list Z) : mempool :=
  mkMempool mgr (map (fun n => newTx n s) nonces).

End Mempool.

(** ** Stand-ins for the collaborators, used to run the model on examples *)

Module Fixture.
Import Bin MemStore Datasets.

(** Digests: the height of the block, and the first bytes of a transaction. *)
Definition exampleHasher : Hasher :=
  {| BlockHash := fun b => le_put Node.HashLen (Height (Header b));
     HashBytes := fun tx => take Node.HashLen (tx ++ make Node.HashLen) |}.

Definition blockAt (height : Z) : Block :=
  mkBlock (mkHeader 0 height Node.zeroHash Node.zeroHash 0 Node.zeroHash) [] [].

(** Flat prices, one balance for every sender, an engine without state. *)
Definition examplePricer : Pricer unit unit :=
  {| PriceDeploy := fun _ => inl 10;
     PriceDrop := fun _ => inl 5;
     PriceExecute := fun _ _ _ => inl 3 |}.

Definition exampleAccounts : AccountStore Z :=
  {| store_Spend := fun balance sp =>
       if Amount sp <=? balance then (balance - Amount sp, None)
       else (balance, Some (External "insufficient balance")) |}.

Definition exampleEngine : Engine unit unit unit :=
  {| CreateDataset := fun e _ _ => (e, None);
     DropDataset := fun e _ _ => (e, None);
     engine_Execute := fun e _ _ _ _ => (e, None) |}.

Definition exampleTx (fee : Z) : Transaction :=
  mkTx (mkSignature "ed25519") (mkBody fee 1) [x41].

(** Digests that tell blocks of one height apart by their timestamp, and a
    decoder of transactions that accepts everything. *)
Definition stampHasher : Hasher :=
  {| BlockHash := fun b =>
       le_put 16 (Height (Header b)) ++ le_put 16 (Timestamp (Header b));
     HashBytes := fun tx => take Node.HashLen (tx ++ make Node.HashLen) |}.

Definition blockStamped (height stamp : Z) (txns : list (list byte)) : Block :=
  mkBlock (mkHeader 0 height Node.zeroHash Node.zeroHash stamp Node.zeroHash) txns [].

Definition rawDecoder : TxDecoder (list byte) unit :=
  {| Transaction_UnmarshalBinary := fun raw => inl raw |}.


End Fixture.

(** * Properties *)

(** ** Little-endian encoding *)

Section BinFacts.
Import Bin.

Lemma byte_to_Z_range b : 0 <= byte_to_Z b < 256.
Proof.
  unfold byte_to_Z. pose proof (Byte.to_N_bounded b) as Hb. lia.
Qed.

Lemma land_255 v : Z.land v 255 = v mod 256.
Proof. change 255 with (Z.ones 8). rewrite Z.land_ones by lia. reflexivity. Qed.

Lemma byte_to_of_Z v : byte_to_Z (byte_of_Z v) = v mod 256.
Proof.
  unfold byte_to_Z, byte_of_Z. rewrite land_255.
  pose proof (Z.mod_pos_bound v 256 ltac:(lia)) as Hr.
  destruct (Byte.of_N (Z.to_N (v mod 256))) as [b|] eqn:E.
  - apply Byte.to_of_N in E. rewrite E. lia.
  - apply Byte.of_N_None_iff in E. lia.
Qed.

Lemma byte_of_to_Z b : byte_of_Z (byte_to_Z b) = b.
Proof.
  unfold byte_of_Z. rewrite land_255.
  rewrite Z.mod_small by apply byte_to_Z_range.
  unfold byte_to_Z. rewrite N2Z.id, Byte.of_to_N. reflexivity.
Qed.

Lemma land_low_shiftl_8 a b : 0 <= a < 256 -> Z.land a (Z.shiftl b 8) = 0.
Proof.
  intros Ha. apply Z.bits_inj'. intros i Hi.
  rewrite Z.land_spec, Z.bits_0.
  destruct (Z.ltb_spec i 8) as [Hlo|Hhi].
  - rewrite Z.shiftl_spec_low by lia. apply andb_false_r.
  - replace (Z.testbit a i) with false; [reflexivity|].
    symmetry. destruct (Z.eq_dec a 0) as [->|Hnz]; [apply Z.bits_0|].
    apply Z.bits_above_log2; [lia|].
    apply Z.lt_le_trans with 8; [|lia].
    apply Z.log2_lt_pow2; [lia|]. change (2 ^ 8) with 256. lia.
Qed.

Lemma lor_shiftl_8 a b : 0 <= a < 256 -> Z.lor a (Z.shiftl b 8) = a + 256 * b.
Proof.
  intros Ha. pose proof (land_low_shiftl_8 a b Ha) as Hdisj.
  rewrite <- Z.lxor_lor by exact Hdisj.
  rewrite <- Z.add_nocarry_lxor by exact Hdisj.
  rewrite Z.shiftl_mul_pow2 by lia. lia.
Qed.

Lemma length_le_put n v : length (le_put n v) = n.
Proof. revert v. induction n; intros; simpl; auto. Qed.

Lemma le_get_put n v : le_get (le_put n v) = v mod 2 ^ (8 * Z.of_nat n).
Proof.
  revert v. induction n as [|k IH]; intros v.
  - simpl. rewrite Z.mod_1_r. reflexivity.
  - cbn [le_put le_get]. rewrite IH, byte_to_of_Z.
    rewrite lor_shiftl_8 by (apply Z.mod_pos_bound; lia).
    rewrite Z.shiftr_div_pow2 by lia.
    replace (8 * Z.of_nat (S k)) with (8 + 8 * Z.of_nat k) by lia.
    rewrite Z.pow_add_r by lia.
    change (2 ^ 8) with 256.
    rewrite Z.rem_mul_r by lia. reflexivity.
Qed.

Lemma le_get_range bs : 0 <= le_get bs < 2 ^ (8 * Z.of_nat (length bs)).
Proof.
  induction bs as [|b r IH].
  - simpl. lia.
  - cbn [le_get length]. pose proof (byte_to_Z_range b) as Hb.
    rewrite lor_shiftl_8 by assumption.
    replace (8 * Z.of_nat (S (length r))) with (8 + 8 * Z.of_nat (length r)) by lia.
    rewrite Z.pow_add_r by lia. change (2 ^ 8) with 256. lia.
Qed.

Lemma byte_of_Z_add a c : byte_of_Z (a + 256 * c) = byte_of_Z a.
Proof.
  unfold byte_of_Z. rewrite !land_255.
  replace (a + 256 * c) with (a + c * 256) by lia.
  rewrite Z.mod_add by lia. reflexivity.
Qed.

Lemma le_put_get bs : le_put (length bs) (le_get bs) = bs.
Proof.
  induction bs as [|b r IH].
  - reflexivity.
  - cbn [le_get length le_put]. pose proof (byte_to_Z_range b) as Hb.
    rewrite lor_shiftl_8 by assumption.
    rewrite byte_of_Z_add, byte_of_to_Z.
    rewrite Z.shiftr_div_pow2 by lia. change (2 ^ 8) with 256.
    replace ((byte_to_Z b + 256 * le_get r) / 256) with (le_get r).
    + rewrite IH. reflexivity.
    + replace (byte_to_Z b + 256 * le_get r) with (byte_to_Z b + le_get r * 256) by lia.
      rewrite Z.div_add by lia. rewrite Z.div_small by lia. lia.
Qed.

Lemma Uint64_put v r : Uint64 (le_put 8 v ++ r) = uint64 v.
Proof.
  unfold Uint64. rewrite take_app_length' by (symmetry; apply length_le_put).
  rewrite le_get_put. reflexivity.
Qed.

Lemma Uint32_put v r : Uint32 (le_put 4 v ++ r) = uint32 v.
Proof.
  unfold Uint32. rewrite take_app_length' by (symmetry; apply length_le_put).
  rewrite le_get_put. reflexivity.
Qed.

Lemma int64_uint64 v : is_int64 v -> int64 (uint64 v) = v.
Proof.
  unfold is_int64, int64, uint64. intros Hv.
  rewrite Z.mod_mod by lia.
  destruct (Z.ltb_spec (v mod 2 ^ 64) (2 ^ 63)) as [Hlt|Hge].
  - destruct (Z.neg_nonneg_cases v) as [Hneg|Hpos].
    + rewrite <- (Z.mod_add v 1) in Hlt by lia.
      rewrite Z.mod_small in Hlt by lia. lia.
    + apply Z.mod_small. lia.
  - destruct (Z.neg_nonneg_cases v) as [Hneg|Hpos].
    + rewrite <- (Z.mod_add v 1) by lia. rewrite Z.mod_small by lia. lia.
    + rewrite Z.mod_small in Hge by lia. lia.
Qed.

Lemma uint64_idem v : uint64 (uint64 v) = uint64 v.
Proof. unfold uint64. apply Z.mod_mod. lia. Qed.

Lemma uint64_id v : is_uint64 v -> uint64 v = v.
Proof. unfold is_uint64, uint64. intros. apply Z.mod_small. lia. Qed.

Lemma uint32_id v : is_uint32 v -> uint32 v = v.
Proof. unfold is_uint32, uint32. intros. apply Z.mod_small. lia. Qed.

Lemma length_copy_at off src buf : length (copy_at off src buf) = length buf.
Proof.
  unfold copy_at. rewrite !length_app, !length_take, length_drop. lia.
Qed.

Lemma length_make n : length (make n) = n.
Proof. apply length_replicate. Qed.

End BinFacts.

Import Bin Node.

(** ** Streams *)

Section StreamFacts.

Lemma ReadFull_app bs rest fin eg buf :
  length buf = length bs ->
  ReadFull (mkReader (bs ++ rest) fin eg) buf
  = (bs, Z.of_nat (length bs), None, mkReader rest fin eg).
Proof.
  intros Hlen. unfold ReadFull. cbn [pending final].
  rewrite length_app, Hlen.
  destruct (Nat.leb_spec (length bs) (length bs + length rest)) as [_|Hbad]; [|lia].
  rewrite take_app_length, drop_app_length. reflexivity.
Qed.

Lemma ReadFull_ok r buf b n r' :
  ReadFull r buf = (b, n, None, r') ->
  b = take (length buf) (pending r) /\ length b = length buf /\
  r' = mkReader (drop (length buf) (pending r)) (final r) (eager r).
Proof.
  unfold ReadFull.
  destruct (Nat.leb_spec (length buf) (length (pending r))) as [Hle|Hlt];
    intros Heq; inversion Heq; subst.
  split; [reflexivity|]. split; [|reflexivity].
  rewrite length_take. lia.
Qed.

Lemma binary_Read_put n v rest fin eg :
  binary_Read n (mkReader (le_put n v ++ rest) fin eg)
  = (inr (v mod 2 ^ (8 * Z.of_nat n)), mkReader rest fin eg).
Proof.
  unfold binary_Read.
  rewrite ReadFull_app by (rewrite length_make, length_le_put; reflexivity).
  rewrite le_get_put. reflexivity.
Qed.

Lemma binary_Read_ok n r v r' :
  binary_Read n r = (inr v, r') ->
  v = le_get (take n (pending r)) /\ (n <= length (pending r))%nat /\
  r' = mkReader (drop n (pending r)) (final r) (eager r).
Proof.
  unfold binary_Read.
  destruct (ReadFull r (make n)) as [[[b k] [e|]] r0] eqn:E; [discriminate|].
  intros Heq. inversion Heq; subst.
  pose proof E as E'. apply ReadFull_ok in E as (-> & Hlen & ->).
  rewrite length_make in *. split; [reflexivity|]. split; [|reflexivity].
  rewrite length_take in Hlen. lia.
Qed.

Lemma copy_at_0_full src buf :
  length src = length buf -> copy_at 0 src buf = src.
Proof.
  intros Hlen. unfold copy_at. rewrite Nat.sub_0_r, Hlen, Nat.min_id.
  rewrite take_0, <- Hlen, firstn_all. cbn [app Nat.add].
  rewrite Hlen, drop_all. apply app_nil_r.
Qed.

End StreamFacts.

(** ** Message codecs *)

Section CodecFacts.

Lemma blockAnnMsg_encoding m :
  (blockAnnMsg.MarshalBinary m).1
  = blockAnnMsg.Hash m ++ le_put 8 (uint64 (blockAnnMsg.Height m))
    ++ blockAnnMsg.AppHash m
    ++ le_put 8 (uint64 (Z.of_nat (length (blockAnnMsg.LeaderSig m))))
    ++ blockAnnMsg.LeaderSig m.
Proof.
  unfold blockAnnMsg.MarshalBinary, blockAnnMsg.WriteTo, AppendUint64.
  cbn [fst app]. rewrite <- !app_assoc. reflexivity.
Qed.

Lemma uint64_mod v : uint64 v mod 2 ^ (8 * Z.of_nat 8) = uint64 v.
Proof. unfold uint64. change (8 * Z.of_nat 8) with 64. apply Z.mod_mod. lia. Qed.

Lemma uint32_mod v : v mod 2 ^ (8 * Z.of_nat 4) = uint32 v.
Proof. reflexivity. Qed.

Lemma uint64_mod' v : v mod 2 ^ (8 * Z.of_nat 8) = uint64 v.
Proof. reflexivity. Qed.

Lemma blockAnnMsg_ReadFrom_encoded m m0 rest fin eg :
  blockAnnMsg.wf m -> blockAnnMsg.wf m0 ->
  (length (blockAnnMsg.LeaderSig m) <= 1000)%nat ->
  blockAnnMsg.ReadFrom m0 (mkReader ((blockAnnMsg.MarshalBinary m).1 ++ rest) fin eg)
  = (m, 112, None, mkReader rest fin eg).
Proof.
  intros (Hh & Hi & Ha) (Hh0 & _ & Ha0) Hsig.
  rewrite blockAnnMsg_encoding. destruct m as [h ht a s]. cbn [blockAnnMsg.Hash
    blockAnnMsg.Height blockAnnMsg.AppHash blockAnnMsg.LeaderSig] in *.
  unfold blockAnnMsg.ReadFrom. rewrite <- !app_assoc.
  rewrite ReadFull_app by congruence.
  rewrite binary_Read_put, uint64_mod, int64_uint64 by assumption.
  rewrite ReadFull_app by congruence.
  rewrite binary_Read_put, uint64_mod.
  rewrite uint64_id by (unfold is_uint64; lia).
  destruct (Z.gtb_spec (Z.of_nat (length s)) 1000) as [Hbad|_]; [lia|].
  rewrite Nat2Z.id.
  rewrite ReadFull_app by apply length_make.
  rewrite Hh. reflexivity.
Qed.

Lemma blockAnnMsg_roundtrip m m0 :
  blockAnnMsg.wf m -> blockAnnMsg.wf m0 ->
  (length (blockAnnMsg.LeaderSig m) <= 1000)%nat ->
  blockAnnMsg.UnmarshalBinary m0 (blockAnnMsg.MarshalBinary m).1 = (m, None).
Proof.
  intros Hm Hm0 Hsig. unfold blockAnnMsg.UnmarshalBinary, NewReader.
  rewrite <- (app_nil_r (blockAnnMsg.MarshalBinary m).1) at 1.
  rewrite blockAnnMsg_ReadFrom_encoded by assumption. reflexivity.
Qed.

Lemma blockHeightReq_roundtrip r r0 :
  blockHeightReq.wf r ->
  blockHeightReq.UnmarshalBinary r0 (blockHeightReq.MarshalBinary r).1 = (r, None).
Proof.
  destruct r as [h]. unfold blockHeightReq.wf. cbn [blockHeightReq.Height]. intros Hh.
  unfold blockHeightReq.UnmarshalBinary, blockHeightReq.MarshalBinary, AppendUint64.
  cbn [app fst blockHeightReq.Height].
  rewrite length_le_put. cbn [Nat.eqb negb].
  rewrite <- (app_nil_r (le_put 8 _)), Uint64_put.
  rewrite uint64_idem, int64_uint64 by assumption. reflexivity.
Qed.

Lemma blockHashReq_roundtrip r r0 :
  blockHashReq.wf r -> blockHashReq.wf r0 ->
  blockHashReq.UnmarshalBinary r0 (blockHashReq.MarshalBinary r).1 = (r, None).
Proof.
  destruct r as [h], r0 as [h0]. unfold blockHashReq.wf. cbn [blockHashReq.Hash].
  intros Hh Hh0.
  unfold blockHashReq.UnmarshalBinary, blockHashReq.MarshalBinary.
  cbn [fst blockHashReq.Hash].
  rewrite Hh, Nat.eqb_refl. cbn [negb].
  rewrite copy_at_0_full by congruence. reflexivity.
Qed.

Lemma snapshotReq_encoding r :
  (snapshotReq.MarshalBinary r).1
  = le_put 8 (snapshotReq.Height r) ++ le_put 4 (snapshotReq.Format r).
Proof. reflexivity. Qed.

Lemma snapshotReq_roundtrip r r0 :
  snapshotReq.wf r ->
  snapshotReq.UnmarshalBinary r0 (snapshotReq.MarshalBinary r).1 = (r, None).
Proof.
  destruct r as [h f]. intros [Hh Hf].
  cbn [snapshotReq.Height snapshotReq.Format] in Hh, Hf.
  rewrite snapshotReq_encoding. cbn [snapshotReq.Height snapshotReq.Format].
  unfold snapshotReq.UnmarshalBinary.
  rewrite length_app, !length_le_put. cbn [Nat.add Nat.eqb negb].
  rewrite take_app_length' by (rewrite length_le_put; reflexivity).
  rewrite drop_app_length' by (rewrite length_le_put; reflexivity).
  rewrite firstn_all2 by (rewrite length_le_put; lia).
  rewrite <- (app_nil_r (le_put 8 h)), Uint64_put.
  rewrite <- (app_nil_r (le_put 4 f)), Uint32_put.
  rewrite uint64_id, uint32_id by assumption. reflexivity.
Qed.

Lemma snapshotChunkReq_encoding_length r :
  length (snapshotChunkReq.MarshalBinary r).1 = 48%nat.
Proof.
  unfold snapshotChunkReq.MarshalBinary, PutUint64, PutUint32. cbn [fst].
  rewrite !length_copy_at. reflexivity.
Qed.

Lemma snapshotChunkReq_no_roundtrip r r0 :
  snapshotChunkReq.UnmarshalBinary r0 (snapshotChunkReq.MarshalBinary r).1
  = (r0, Some (New "unexpected data length")).
Proof.
  unfold snapshotChunkReq.UnmarshalBinary.
  rewrite snapshotChunkReq_encoding_length. reflexivity.
Qed.

End CodecFacts.

Section CodecStreams.

Lemma blockHeightReq_ReadFrom_encoded r r0 rest fin eg :
  blockHeightReq.wf r ->
  blockHeightReq.ReadFrom r0 (mkReader ((blockHeightReq.MarshalBinary r).1 ++ rest) fin eg)
  = (r, 8, None, mkReader rest fin eg).
Proof.
  destruct r as [h]. unfold blockHeightReq.wf. cbn [blockHeightReq.Height]. intros Hh.
  unfold blockHeightReq.ReadFrom, blockHeightReq.MarshalBinary, AppendUint64.
  cbn [app fst blockHeightReq.Height].
  rewrite ReadFull_app by (rewrite length_make, length_le_put; reflexivity).
  rewrite length_le_put.
  rewrite <- (app_nil_r (le_put 8 _)), Uint64_put.
  rewrite uint64_idem, int64_uint64 by assumption. reflexivity.
Qed.

Lemma blockHashReq_ReadFrom_encoded r r0 rest fin eg :
  blockHashReq.wf r -> blockHashReq.wf r0 ->
  blockHashReq.ReadFrom r0 (mkReader ((blockHashReq.MarshalBinary r).1 ++ rest) fin eg)
  = (r, 32, None, mkReader rest fin eg).
Proof.
  destruct r as [h], r0 as [h0]. unfold blockHashReq.wf. cbn [blockHashReq.Hash].
  intros Hh Hh0.
  unfold blockHashReq.ReadFrom, blockHashReq.MarshalBinary.
  cbn [fst blockHashReq.Hash].
  rewrite ReadFull_app by congruence. rewrite Hh. reflexivity.
Qed.

Lemma snapshotReq_ReadFrom_encoded r r0 rest fin eg :
  snapshotReq.wf r ->
  snapshotReq.ReadFrom r0 (mkReader ((snapshotReq.MarshalBinary r).1 ++ rest) fin eg)
  = (r, 12, None, mkReader rest fin eg).
Proof.
  destruct r as [h f]. intros [Hh Hf].
  cbn [snapshotReq.Height snapshotReq.Format] in Hh, Hf.
  rewrite snapshotReq_encoding. cbn [snapshotReq.Height snapshotReq.Format].
  unfold snapshotReq.ReadFrom. rewrite <- app_assoc.
  rewrite binary_Read_put, binary_Read_put.
  rewrite uint64_mod', uint32_mod.
  rewrite uint64_id, uint32_id by assumption. reflexivity.
Qed.

(** The chunk request on the wire: height, then the index where the format
    was first written, the hash, and four bytes that stay zero. *)
Lemma snapshotChunkReq_encoding r :
  length (snapshotChunkReq.Hash r) = HashLen ->
  (snapshotChunkReq.MarshalBinary r).1
  = le_put 8 (snapshotChunkReq.Height r) ++ le_put 4 (snapshotChunkReq.Index r)
    ++ snapshotChunkReq.Hash r ++ make 4.
Proof.
  destruct r as [h f i hs]. cbn [snapshotChunkReq.Hash snapshotChunkReq.Height
    snapshotChunkReq.Index]. intros Hlen.
  unfold snapshotChunkReq.MarshalBinary.
  cbn [fst snapshotChunkReq.Hash snapshotChunkReq.Height snapshotChunkReq.Index
       snapshotChunkReq.Format].
  set (buf := PutUint32 8 i _).
  assert (Hbuf : buf = le_put 8 h ++ le_put 4 i ++ make 36) by reflexivity.
  unfold copy_at. rewrite Hbuf, Hlen.
  rewrite !length_app, !length_le_put, length_make.
  change (Nat.min HashLen (8 + (4 + 36) - 12)) with 32%nat.
  change (12 + 32)%nat with 44%nat.
  rewrite (take_ge hs 32) by (rewrite Hlen; reflexivity). reflexivity.
Qed.

(** Read from a stream, the encoded chunk request keeps the receiver's
    format and leaves the four trailing bytes unread. *)
Lemma snapshotChunkReq_ReadFrom_encoded r r0 rest fin eg :
  snapshotChunkReq.wf r -> snapshotChunkReq.wf r0 ->
  snapshotChunkReq.ReadFrom r0
    (mkReader ((snapshotChunkReq.MarshalBinary r).1 ++ rest) fin eg)
  = (snapshotChunkReq.mk (snapshotChunkReq.Height r) (snapshotChunkReq.Format r0)
       (snapshotChunkReq.Index r) (snapshotChunkReq.Hash r),
     44, None, mkReader (make 4 ++ rest) fin eg).
Proof.
  intros (Hh & Hf & Hi & Hl) (_ & _ & _ & Hl0).
  rewrite snapshotChunkReq_encoding by assumption.
  unfold snapshotChunkReq.ReadFrom. rewrite <- !app_assoc.
  rewrite binary_Read_put, binary_Read_put.
  rewrite uint64_mod', uint32_mod.
  rewrite uint64_id, uint32_id by assumption.
  rewrite ReadFull_app by congruence. rewrite Hl. reflexivity.
Qed.

End CodecStreams.

(** ** Claims about the codecs and the response reader *)

Section CodecClaims.

(** C1 (as amended): for [blockHeightReq], [blockHashReq] and [snapshotReq],
    and for every [blockAnnMsg] whose leader signature is at most 1000 bytes
    long, decoding the bytes produced by encoding a message succeeds and
    yields the message itself. *)
Theorem codec_roundtrip
    (a a0 : blockAnnMsg.t) (h h0 : blockHeightReq.t)
    (b b0 : blockHashReq.t) (s s0 : snapshotReq.t) :
  blockAnnMsg.wf a -> blockAnnMsg.wf a0 ->
  (length (blockAnnMsg.LeaderSig a) <= 1000)%nat ->
  blockHeightReq.wf h -> blockHashReq.wf b -> blockHashReq.wf b0 ->
  snapshotReq.wf s ->
  blockAnnMsg.UnmarshalBinary a0 (blockAnnMsg.MarshalBinary a).1 = (a, None) /\
  blockHeightReq.UnmarshalBinary h0 (blockHeightReq.MarshalBinary h).1 = (h, None) /\
  blockHashReq.UnmarshalBinary b0 (blockHashReq.MarshalBinary b).1 = (b, None) /\
  snapshotReq.UnmarshalBinary s0 (snapshotReq.MarshalBinary s).1 = (s, None).
Proof.
  intros Ha Ha0 Hsig Hh Hb Hb0 Hs. repeat split.
  - apply blockAnnMsg_roundtrip; assumption.
  - apply blockHeightReq_roundtrip; assumption.
  - apply blockHashReq_roundtrip; assumption.
  - apply snapshotReq_roundtrip; assumption.
Qed.

Lemma codec_roundtrip_witness :
  let a := blockAnnMsg.mk zeroHash 7 zeroHash [x01; x02; x03] in
  let h := blockHeightReq.mk (-5) in
  let b := blockHashReq.mk zeroHash in
  let s := snapshotReq.mk 9 1 in
  blockAnnMsg.UnmarshalBinary blockAnnMsg.zero (blockAnnMsg.MarshalBinary a).1
    = (a, None) /\
  blockHeightReq.UnmarshalBinary (blockHeightReq.mk 0) (blockHeightReq.MarshalBinary h).1
    = (h, None) /\
  blockHashReq.UnmarshalBinary b (blockHashReq.MarshalBinary b).1 = (b, None) /\
  snapshotReq.UnmarshalBinary (snapshotReq.mk 0 0) (snapshotReq.MarshalBinary s).1
    = (s, None).
Proof.
  intros a h b s.
  apply (codec_roundtrip a blockAnnMsg.zero h (blockHeightReq.mk 0) b b s
           (snapshotReq.mk 0 0)).
  - repeat split; vm_compute; congruence.
  - repeat split; vm_compute; congruence.
  - vm_compute. lia.
  - split; vm_compute; congruence.
  - reflexivity.
  - reflexivity.
  - repeat split; vm_compute; congruence.
Defined.

(** C1, as stated, fails on two messages: every encoded [snapshotChunkReq] is
    four bytes longer than its decoder accepts (and, read from a stream, its
    format is lost), and a [blockAnnMsg] with a 1001-byte signature encodes
    but is refused by the decoder. *)
Lemma codec_roundtrip_counterexample :
  let c := snapshotChunkReq.mk 1 2 3 zeroHash in
  let a := blockAnnMsg.mk zeroHash 1 zeroHash (make 1001) in
  (snapshotChunkReq.wf c /\
   snapshotChunkReq.UnmarshalBinary snapshotChunkReq.zero
     (snapshotChunkReq.MarshalBinary c).1
   = (snapshotChunkReq.zero, Some (New "unexpected data length")) /\
   (snapshotChunkReq.ReadFrom snapshotChunkReq.zero
      (NewReader (snapshotChunkReq.MarshalBinary c).1)).1.1.1
   = snapshotChunkReq.mk 1 0 3 zeroHash) /\
  (blockAnnMsg.wf a /\
   blockAnnMsg.UnmarshalBinary blockAnnMsg.zero (blockAnnMsg.MarshalBinary a).1
   = (blockAnnMsg.mk zeroHash 1 zeroHash [],
      Some (New "unexpected leader sig length"))).
Proof.
  cbv zeta. split; [split; [|split] | split].
  - repeat split; vm_compute; congruence.
  - vm_compute. reflexivity.
  - vm_compute. reflexivity.
  - repeat split; vm_compute; congruence.
  - vm_compute. reflexivity.
Qed.

(** The stream a successful [ReadFrom] consumed. *)
Lemma blockAnnMsg_ReadFrom_ok m0 r m n r' :
  blockAnnMsg.wf m0 ->
  blockAnnMsg.ReadFrom m0 r = (m, n, None, r') ->
  let sigLen := Uint64 (drop 72 (pending r)) in
  sigLen <= 1000 /\
  blockAnnMsg.LeaderSig m = take (Z.to_nat sigLen) (drop 80 (pending r)) /\
  length (blockAnnMsg.LeaderSig m) = Z.to_nat sigLen.
Proof.
  intros (Hh & _ & Ha). unfold blockAnnMsg.ReadFrom.
  destruct (ReadFull r (blockAnnMsg.Hash m0)) as [[[h1 n1] [e1|]] r1] eqn:E1;
    [intros Heq; inversion Heq|].
  apply ReadFull_ok in E1 as (_ & _ & ->).
  destruct (binary_Read 8 _) as [[e2|hv] r2] eqn:E2; [intros Heq; inversion Heq|].
  apply binary_Read_ok in E2 as (_ & _ & ->). cbn [pending final].
  destruct (ReadFull _ (blockAnnMsg.AppHash m0)) as [[[a3 n3] [e3|]] r3] eqn:E3;
    [intros Heq; inversion Heq|].
  apply ReadFull_ok in E3 as (_ & _ & ->). cbn [pending final].
  destruct (binary_Read 8 _) as [[e4|sl] r4] eqn:E4; [intros Heq; inversion Heq|].
  apply binary_Read_ok in E4 as (-> & _ & ->). cbn [pending final].
  rewrite !drop_drop, Hh, Ha. unfold HashLen. cbn [Nat.add].
  fold (Uint64 (drop 72 (pending r))).
  destruct (Z.gtb_spec (Uint64 (drop 72 (pending r))) 1000) as [Hbig|Hok];
    [intros Heq; inversion Heq|].
  destruct (ReadFull _ (make _)) as [[[s5 n5] [e5|]] r5] eqn:E5;
    intros Heq; inversion Heq; subst.
  apply ReadFull_ok in E5 as (-> & Hlen & _). cbn [pending] in *.
  rewrite length_make in *. cbn [blockAnnMsg.LeaderSig].
  repeat split; assumption.
Qed.

(** C8: a block announcement whose signature-length field exceeds 1000 is
    refused with an error, and a decoded announcement never carries a leader
    signature longer than 1000 bytes. *)
Theorem blockAnnMsg_sig_bound (m0 : blockAnnMsg.t) (r : Reader) :
  blockAnnMsg.wf m0 ->
  (1000 < Uint64 (drop 72 (pending r)) ->
   exists e, (blockAnnMsg.ReadFrom m0 r).1.2 = Some e) /\
  ((80 <= length (pending r))%nat -> 1000 < Uint64 (drop 72 (pending r)) ->
   (blockAnnMsg.ReadFrom m0 r).1.2 = Some (New "unexpected leader sig length")) /\
  (forall m n r', blockAnnMsg.ReadFrom m0 r = (m, n, None, r') ->
   (length (blockAnnMsg.LeaderSig m) <= 1000)%nat).
Proof.
  intros Hwf. split; [|split].
  - intros Hbig.
    destruct (blockAnnMsg.ReadFrom m0 r) as [[[m n] [e|]] r'] eqn:E.
    + exists e. reflexivity.
    + apply blockAnnMsg_ReadFrom_ok in E as (Hle & _); [lia | assumption].
  - intros Hlen Hbig. destruct Hwf as (Hh & _ & Ha).
    destruct r as [p fin eg]. cbn [pending] in *.
    rewrite <- (take_drop 32 p). rewrite <- (take_drop 8 (drop 32 p)).
    rewrite <- (take_drop 32 (drop 8 (drop 32 p))).
    rewrite <- (take_drop 8 (drop 32 (drop 8 (drop 32 p)))).
    rewrite !drop_drop. cbn [Nat.add].
    unfold blockAnnMsg.ReadFrom.
    rewrite ReadFull_app by (rewrite length_take; unfold HashLen in Hh; lia).
    unfold binary_Read.
    rewrite ReadFull_app by (rewrite length_take, length_drop, length_make; lia).
    rewrite ReadFull_app by (rewrite length_take, length_drop; unfold HashLen in Ha; lia).
    rewrite ReadFull_app by (rewrite length_take, length_drop, length_make; lia).
    fold (Uint64 (drop 72 p)).
    destruct (Z.gtb_spec (Uint64 (drop 72 p)) 1000) as [_|Hok]; [reflexivity|lia].
  - intros m n r' E. apply blockAnnMsg_ReadFrom_ok in E as (Hle & _ & ->); [|assumption].
    lia.
Qed.

Lemma blockAnnMsg_sig_bound_witness :
  let r := NewReader (make 72 ++ [xe9; x03; x00; x00; x00; x00; x00; x00]) in
  (blockAnnMsg.ReadFrom blockAnnMsg.zero r).1.2
  = Some (New "unexpected leader sig length").
Proof.
  intros r.
  apply (blockAnnMsg_sig_bound blockAnnMsg.zero r).
  - repeat split; vm_compute; congruence.
  - vm_compute. lia.
  - vm_compute. reflexivity.
Defined.

End CodecClaims.

Section ResponseReader.

(** What [io.ReadAll] gets through the limit from a stream that ends cleanly:
    the first [limit] bytes. *)
Lemma ReadAll_LimitReader_clean data limit :
  ReadAll (LimitReader (NewReader data) limit) = (take (Z.to_nat limit) data, None).
Proof.
  unfold LimitReader, NewReader, ReadAll. cbn [pending final eager negb].
  rewrite andb_true_r.
  destruct (Z.leb_spec limit 0) as [Hle|Hgt].
  - cbn [pending final]. replace (Z.to_nat limit) with 0%nat by lia. reflexivity.
  - destruct (Z.ltb_spec limit (Z.of_nat (length data))) as [Hin|Hout]; cbn [pending final].
    + reflexivity.
    + rewrite take_ge by lia.
      destruct (limit =? Z.of_nat (length data)); reflexivity.
Qed.

Lemma readResp_clean data limit :
  let resp := take (Z.to_nat limit) data in
  readResp (NewReader data) limit
  = if decide (resp = []) then ([], Some ErrNoResponse)
    else if decide (resp = [x00]) then ([], Some ErrNotFound)
    else (resp, None).
Proof.
  intros resp. unfold readResp. rewrite ReadAll_LimitReader_clean. fold resp.
  destruct resp as [|b l] eqn:E.
  - reflexivity.
  - cbn [length Nat.eqb]. destruct (decide (b :: l = [])) as [Hnil|_]; [discriminate|].
    unfold bytes_Equal, noData.
    destruct (decide (b :: l = [x00])) as [Heq|Hne].
    + rewrite bool_decide_eq_true_2 by assumption. reflexivity.
    + rewrite bool_decide_eq_false_2 by assumption. reflexivity.
Qed.

Lemma readResp_content rd limit resp :
  readResp rd limit = (resp, None) ->
  resp <> [] /\ resp <> [x00] /\ Z.of_nat (length resp) <= limit /\
  resp = take (Z.to_nat limit) (pending rd).
Proof.
  assert (Hbody : forall body,
            (Z.of_nat (length body) <= limit) ->
            body = take (Z.to_nat limit) (pending rd) ->
            (if (length body =? 0)%nat then ([], Some ErrNoResponse)
             else if bytes_Equal body noData then ([], Some ErrNotFound)
             else (body, None)) = (resp, None) ->
            resp <> [] /\ resp <> [x00] /\ Z.of_nat (length resp) <= limit /\
            resp = take (Z.to_nat limit) (pending rd)).
  { intros body Hlen Htake.
    destruct (Nat.eqb_spec (length body) 0) as [|Hn]; [discriminate|].
    unfold bytes_Equal, noData. case_bool_decide as Hd; [discriminate|].
    intros Heq. inversion Heq as [Hr]. rewrite Hr in *.
    repeat split; try assumption.
    intros ->. apply Hn. reflexivity. }
  unfold readResp, ReadAll, LimitReader.
  destruct (Z.leb_spec limit 0) as [Hle|Hgt]; cbn [pending final length Nat.eqb].
  - discriminate.
  - destruct (Z.ltb_spec limit (Z.of_nat (length (pending rd)))) as [Hin|Hout];
      cbn [pending final].
    + apply Hbody; [rewrite length_take; lia | reflexivity].
    + assert (Hall : pending rd = take (Z.to_nat limit) (pending rd))
        by (rewrite take_ge by lia; reflexivity).
      destruct ((limit =? Z.of_nat (length (pending rd))) && negb (eager rd));
        cbn [pending final].
      * apply Hbody; [lia | exact Hall].
      * destruct (final rd); try discriminate.
        apply Hbody; [lia | exact Hall].
Qed.

(** A transport error before the limit is what [readResp] returns. *)
Lemma readResp_failed rd limit :
  0 < limit -> Z.of_nat (length (pending rd)) < limit -> final rd <> EOF ->
  readResp rd limit = ([], Some (final rd)).
Proof.
  intros Hpos Hshort Hfin. unfold readResp, ReadAll, LimitReader.
  destruct (Z.leb_spec limit 0) as [Hle|_]; [lia|].
  destruct (Z.ltb_spec limit (Z.of_nat (length (pending rd)))) as [Hin|_]; [lia|].
  destruct (Z.eqb_spec limit (Z.of_nat (length (pending rd)))) as [Heq|_]; [lia|].
  cbn [andb].
  destruct (final rd); try reflexivity. congruence.
Qed.

(** With a limit of two or more, truncation changes neither an empty body
    nor a one-byte body. *)
Lemma take_two_or_more (n : nat) (l : list byte) (x : byte) :
  (2 <= n)%nat -> (take n l = [] <-> l = []) /\ (take n l = [x] <-> l = [x]).
Proof.
  intros Hn. destruct n as [|[|n]]; [lia|lia|].
  destruct l as [|a [|b l]]; cbn [take]; split; split; intros Heq;
    congruence.
Qed.

(** C9: [readResp] sorts what it read under the limit into three classes:
    nothing gives the no-response error, exactly the byte 0x00 gives the
    not-found error, anything else is the content; so the content is never
    the single byte 0x00 and never longer than the limit, and [request]
    hands the same classes on. *)
Theorem readResp_classification (data : list byte) (limit : Z) :
  let resp := take (Z.to_nat limit) data in
  (resp = [] -> readResp (NewReader data) limit = ([], Some ErrNoResponse)) /\
  (resp = [x00] -> readResp (NewReader data) limit = ([], Some ErrNotFound)) /\
  (resp <> [] -> resp <> [x00] -> readResp (NewReader data) limit = (resp, None)) /\
  (forall rd body, readResp rd limit = (body, None) ->
     body <> [x00] /\ body <> [] /\ Z.of_nat (length body) <= limit) /\
  (2 <= limit ->
   (data = [] -> readResp (NewReader data) limit = ([], Some ErrNoResponse)) /\
   (data = [x00] -> readResp (NewReader data) limit = ([], Some ErrNotFound)) /\
   (data <> [] -> data <> [x00] ->
    readResp (NewReader data) limit = (take (Z.to_nat limit) data, None))) /\
  (forall req,
     request (mkRW None (NewReader data)) req limit
     = match readResp (NewReader data) limit with
       | (_, Some err) => ([], Some (Wrap "failed to read resource get response" err))
       | (body, None) => (body, None)
       end).
Proof.
  intros resp. pose proof (readResp_clean data limit) as Hc. fold resp in Hc.
  cbv zeta in Hc. split; [|split; [|split; [|split; [|split]]]].
  - intros Hnil. rewrite Hc. destruct (decide (resp = [])); [reflexivity|contradiction].
  - intros H0. rewrite Hc. destruct (decide (resp = [])) as [Hnil|_]; [congruence|].
    destruct (decide (resp = [x00])); [reflexivity|contradiction].
  - intros Hn H0. rewrite Hc. destruct (decide (resp = [])); [contradiction|].
    destruct (decide (resp = [x00])); [contradiction|reflexivity].
  - intros rd body Hok. apply readResp_content in Hok. tauto.
  - intros Hlim.
    destruct (take_two_or_more (Z.to_nat limit) data x00 ltac:(lia)) as [Hnil Hone].
    fold resp in Hnil, Hone. rewrite Hc. split; [|split].
    + intros Hd. destruct (decide (resp = [])) as [_|Hr]; [reflexivity|].
      exfalso. apply Hr, Hnil, Hd.
    + intros Hd. destruct (decide (resp = [])) as [Hr|_].
      { apply Hnil in Hr. congruence. }
      destruct (decide (resp = [x00])) as [_|Hr]; [reflexivity|].
      exfalso. apply Hr, Hone, Hd.
    + intros Hn H0. destruct (decide (resp = [])) as [Hr|_].
      { exfalso. apply Hn, Hnil, Hr. }
      destruct (decide (resp = [x00])) as [Hr|_]; [|reflexivity].
      exfalso. apply H0, Hone, Hr.
  - intros req. unfold request. cbn [write_err reply].
    destruct (readResp (NewReader data) limit) as [body [err|]]; reflexivity.
Qed.

Lemma readResp_classification_witness :
  readResp (NewReader []) 100 = ([], Some ErrNoResponse) /\
  readResp (NewReader [x00]) 100 = ([], Some ErrNotFound) /\
  readResp (NewReader [x00; x01]) 100 = ([x00; x01], None) /\
  readResp (NewReader [x07; x08; x09]) 2 = ([x07; x08], None).
Proof.
  split; [|split; [|split]].
  - destruct (readResp_classification [] 100) as (Hnone & _).
    apply Hnone. reflexivity.
  - destruct (readResp_classification [x00] 100) as (_ & Hmiss & _).
    apply Hmiss. reflexivity.
  - destruct (readResp_classification [x00; x01] 100) as (_ & _ & Hbody & _).
    apply Hbody; discriminate.
  - destruct (readResp_classification [x07; x08; x09] 2) as (_ & _ & _ & _ & Hs & _).
    apply Hs; [lia|discriminate|discriminate].
Defined.

End ResponseReader.

(** ** The block store *)

Section BestFacts.
Import MemStore.

Lemma Best_step_height best e : best.1.1 <= (Best_step best e).1.1.
Proof.
  destruct best as [[bh x] y]. unfold Best_step. cbn [fst].
  destruct (Z.geb_spec e.1 bh); cbn [fst]; lia.
Qed.

Lemma Best_step_entry best e : e.1 <= (Best_step best e).1.1.
Proof.
  destruct best as [[bh x] y]. unfold Best_step. cbn [fst].
  destruct (Z.geb_spec e.1 bh); cbn [fst]; lia.
Qed.

(** The loop started from any running best. *)
Lemma Best_loop_spec order best :
  let r := foldl Best_step best order in
  best.1.1 <= r.1.1 /\
  (forall e, e ∈ order -> e.1 <= r.1.1) /\
  ((r = best /\ forall e, e ∈ order -> e.1 < best.1.1) \/
   (exists e, e ∈ order /\ r = (e.1, hash e.2, appHash e.2))).
Proof.
  revert best. induction order as [|e order IH]; intros best; cbn [foldl].
  - split; [lia|]. split.
    + intros e He. inversion He.
    + left. split; [reflexivity|]. intros e He. inversion He.
  - specialize (IH (Best_step best e)). cbv zeta in IH.
    destruct IH as (Hge & Hall & Hcase).
    pose proof (Best_step_height best e) as Hstep.
    split; [lia|]. split.
    + intros e' He'. apply elem_of_cons in He' as [->|Hin]; [|auto].
      pose proof (Best_step_entry best e). lia.
    + destruct Hcase as [(Heq & Hlt)|(e' & Hin & Heq)].
      * destruct best as [[bh x] y]. unfold Best_step in Heq, Hlt |- *.
        cbn [fst] in *. destruct (Z.geb_spec e.1 bh) as [Hup|Hkeep].
        -- right. exists e. split; [left|exact Heq].
        -- left. split; [exact Heq|].
           intros e' He'. apply elem_of_cons in He' as [->|Hin]; [lia|auto].
      * right. exists e'. split; [right; exact Hin|exact Heq].
Qed.

Lemma Best_over_is_best (m : gmap Z blockHashes) order :
  order ≡ₚ map_to_list m -> is_best m (Best_over order).
Proof.
  intros Hperm. unfold Best_over.
  pose proof (Best_loop_spec order (0, Node.zeroHash, Node.zeroHash)) as Hs.
  cbv zeta in Hs. cbn [fst] in Hs. destruct Hs as (Hge & Hall & Hcase).
  assert (Hin : forall k v, (k, v) ∈ order <-> m !! k = Some v).
  { intros k v. rewrite Hperm. apply elem_of_map_to_list. }
  split; [exact Hge|]. split.
  - intros k v Hk. apply (Hall (k, v)). apply Hin. exact Hk.
  - destruct Hcase as [(Heq & Hlt)|([k v] & He & Heq)].
    + rewrite Heq. cbn [fst].
      destruct (m !! 0) as [v|] eqn:E; [|reflexivity].
      apply Hin, Hlt in E. cbn [fst] in E. lia.
    + rewrite Heq. cbn [fst snd]. apply Hin in He. rewrite He. split; reflexivity.
Qed.

Lemma is_best_unique m r r' : is_best m r -> is_best m r' -> r = r'.
Proof.
  destruct r as [[h x] y], r' as [[h' x'] y']. unfold is_best. cbn [fst snd].
  intros (H0 & Hmax & Hv) (H0' & Hmax' & Hv').
  destruct (m !! h) as [v|] eqn:E; destruct (m !! h') as [v'|] eqn:E'.
  - assert (h = h') by (apply Hmax' in E; apply Hmax in E'; lia). subst h'.
    destruct Hv as [-> ->], Hv' as [-> ->].
    rewrite E in E'. injection E' as ->. reflexivity.
  - inversion Hv'; subst. pose proof (Hmax' _ _ E).
    assert (h = 0) by lia. subst h. rewrite E in E'. discriminate.
  - inversion Hv; subst. pose proof (Hmax _ _ E').
    assert (h' = 0) by lia. subst h'. rewrite E in E'. discriminate.
  - rewrite Hv, Hv'. reflexivity.
Qed.

(** The result of [Best] does not depend on the order of iteration. *)
Lemma Best_order_independent bs order :
  range_order bs order -> Best_over order = Best bs.
Proof.
  intros Ho. apply (is_best_unique (hashes bs)).
  - apply Best_over_is_best. exact Ho.
  - apply Best_over_is_best. reflexivity.
Qed.

End BestFacts.

Section StoreFacts.
Import MemStore.
Context `{Hasher}.

Lemma hashes_Store bs b app :
  hashes (Store bs b app)
  = <[Height (Header b) := mkHashes (BlockHash b) app]> (hashes bs).
Proof. reflexivity. Qed.

Lemma idx_Store bs b app :
  idx (Store bs b app) = <[BlockHash b := Height (Header b)]> (idx bs).
Proof. reflexivity. Qed.

Lemma is_best_Store_higher m r hb v :
  is_best m r -> r.1.1 < hb -> is_best (<[hb := v]> m) (hb, hash v, appHash v).
Proof.
  intros (H0 & Hmax & _) Hlt. unfold is_best. cbn [fst snd].
  split; [lia|]. split.
  - intros k w Hk. destruct (decide (hb = k)) as [->|Hne]; [lia|].
    rewrite lookup_insert_ne in Hk by assumption. apply Hmax in Hk. lia.
  - rewrite lookup_insert_eq. split; reflexivity.
Qed.

Lemma is_best_Store_negative m r hb v :
  is_best m r -> hb < 0 -> is_best (<[hb := v]> m) r.
Proof.
  intros (H0 & Hmax & Hv) Hneg. unfold is_best.
  split; [exact H0|]. split.
  - intros k w Hk. destruct (decide (hb = k)) as [->|Hne]; [lia|].
    rewrite lookup_insert_ne in Hk by assumption. apply Hmax in Hk. lia.
  - rewrite lookup_insert_ne by lia. exact Hv.
Qed.

Lemma is_best_Store_mono m r r' hb v :
  is_best m r -> is_best (<[hb := v]> m) r' -> r.1.1 <= r'.1.1.
Proof.
  intros (H0 & Hmax & Hv) (H0' & Hmax' & _).
  destruct (m !! r.1.1) as [w|] eqn:E.
  - destruct (decide (hb = r.1.1)) as [Heq|Hne].
    + rewrite <- Heq. apply (Hmax' hb v). apply lookup_insert_eq.
    + apply (Hmax' r.1.1 w). rewrite lookup_insert_ne by assumption. exact E.
  - rewrite Hv. cbn [fst]. exact H0'.
Qed.

(** C2: [Store] never lowers the height [Best] reports, and a block above
    the previous best becomes the best, with its hash and the app hash that
    was stored with it; whatever order the map iterations take. *)
Theorem Store_Best_monotone (bs : MemBS) (b : Block) (app : Hash)
    (order order' : list (Z * blockHashes)) :
  range_order bs order -> range_order (Store bs b app) order' ->
  (Best_over order).1.1 <= (Best_over order').1.1 /\
  ((Best_over order).1.1 < Height (Header b) ->
   Best_over order' = (Height (Header b), BlockHash b, app)).
Proof.
  intros Ho Ho'. unfold range_order in *. rewrite hashes_Store in Ho'.
  apply Best_over_is_best in Ho, Ho'. split.
  - eapply is_best_Store_mono; eassumption.
  - intros Hlt. eapply is_best_unique; [exact Ho'|].
    apply (is_best_Store_higher _ _ _ (mkHashes (BlockHash b) app) Ho Hlt).
Qed.

(** C10: on a new store [Best] reports height 0 with zero hashes; the height
    it reports is never negative, and storing a block at a negative height
    leaves its result as it was. *)
Theorem Best_never_negative :
  (forall order, range_order NewMemBS order ->
     Best_over order = (0, Node.zeroHash, Node.zeroHash)) /\
  (forall bs order, range_order bs order -> 0 <= (Best_over order).1.1) /\
  (forall bs order, range_order bs order ->
     Best_over order = (0, Node.zeroHash, Node.zeroHash) \/
     exists height, 0 <= height /\
       hashes bs !! height
       = Some (mkHashes (Best_over order).1.2 (Best_over order).2) /\
       (Best_over order).1.1 = height) /\
  (forall bs b app order order',
     Height (Header b) < 0 ->
     range_order bs order -> range_order (Store bs b app) order' ->
     Best_over order' = Best_over order).
Proof.
  split; [|split; [|split]].
  - intros order Ho. unfold range_order, NewMemBS in Ho. cbn [hashes] in Ho.
    rewrite map_to_list_empty in Ho. apply Permutation_nil_r in Ho.
    rewrite Ho. reflexivity.
  - intros bs order Ho. apply Best_over_is_best in Ho. apply Ho.
  - intros bs order Ho. apply Best_over_is_best in Ho.
    destruct Ho as (H0 & _ & Hv).
    destruct (hashes bs !! (Best_over order).1.1) as [[x y]|] eqn:E.
    + right. exists (Best_over order).1.1. cbn [hash appHash] in Hv.
      destruct Hv as [-> ->]. split; [exact H0|]. split; [exact E|reflexivity].
    + left. exact Hv.
  - intros bs b app order order' Hneg Ho Ho'. unfold range_order in *.
    rewrite hashes_Store in Ho'. apply Best_over_is_best in Ho, Ho'.
    eapply is_best_unique; [exact Ho'|].
    apply is_best_Store_negative; assumption.
Qed.

End StoreFacts.

Section StoreWitnesses.
Import MemStore Fixture.

Lemma Store_Best_monotone_witness :
  let b := blockAt 1 in
  let bs' := @Store exampleHasher NewMemBS b Node.zeroHash in
  (Best_over []).1.1 <= (Best_over (map_to_list (hashes bs'))).1.1 /\
  ((Best_over []).1.1 < 1 ->
   Best_over (map_to_list (hashes bs'))
   = (1, @BlockHash exampleHasher b, Node.zeroHash)).
Proof.
  intros b bs'.
  apply (@Store_Best_monotone exampleHasher NewMemBS b Node.zeroHash []
           (map_to_list (hashes bs'))).
  - unfold range_order. vm_compute. reflexivity.
  - unfold range_order. reflexivity.
Defined.

Lemma Best_never_negative_witness :
  let b := blockAt (-1) in
  let bs' := @Store exampleHasher NewMemBS b Node.zeroHash in
  Best_over [] = (0, Node.zeroHash, Node.zeroHash) /\
  0 <= (Best_over (map_to_list (hashes bs'))).1.1 /\
  Best_over (map_to_list (hashes bs')) = Best_over [].
Proof.
  intros b bs'.
  destruct (@Best_never_negative exampleHasher) as (Hnew & Hpos & _ & Hneg).
  split; [|split].
  - apply Hnew. unfold range_order. vm_compute. reflexivity.
  - apply (Hpos bs'). unfold range_order. reflexivity.
  - apply (Hneg NewMemBS b Node.zeroHash).
    + vm_compute. reflexivity.
    + unfold range_order. vm_compute. reflexivity.
    + unfold range_order. reflexivity.
Defined.

End StoreWitnesses.

Section PreFetchFacts.
Import MemStore.
Context `{Hasher}.

Lemma PreFetch_granted bs h :
  idx bs !! h = None -> fetching bs !! h <> Some true ->
  PreFetch bs h
  = (true, release_fetching h,
     mkMemBS (idx bs) (hashes bs) (blocks bs) (txResults bs) (txIds bs)
       (<[h := true]> (fetching bs))).
Proof.
  intros Hidx Hfree. unfold PreFetch. rewrite Hidx.
  destruct (fetching bs !! h) as [[|]|]; cbn [default]; try reflexivity.
  exfalso. apply Hfree. reflexivity.
Qed.

Lemma PreFetch_stored bs h :
  is_Some (idx bs !! h) -> PreFetch bs h = (false, release_noop, bs).
Proof. intros [height Hs]. unfold PreFetch. rewrite Hs. reflexivity. Qed.

Lemma PreFetch_reserved bs h :
  fetching bs !! h = Some true -> PreFetch bs h = (false, release_noop, bs).
Proof.
  intros Hf. unfold PreFetch. rewrite Hf.
  destruct (idx bs !! h); reflexivity.
Qed.

(** No call other than the release of [h] frees the reservation of [h]. *)
Lemma exec_keeps_reservation bs c h :
  c <> CallRelease (release_fetching h) ->
  fetching bs !! h = Some true -> fetching (exec bs c) !! h = Some true.
Proof.
  intros Hc Hf. destruct c as [block app|h' results|h'|[|h']]; cbn [exec];
    try exact Hf.
  - unfold PreFetch. destruct (idx bs !! h'); [exact Hf|].
    destruct (default false (fetching bs !! h')); cbn [snd fetching]; [exact Hf|].
    destruct (decide (h' = h)) as [->|Hne].
    + apply lookup_insert_eq.
    + rewrite lookup_insert_ne by assumption. exact Hf.
  - cbn [run_release fetching].
    rewrite lookup_delete_ne by congruence. exact Hf.
Qed.

Lemma run_keeps_reservation calls bs h :
  Forall (fun c => c <> CallRelease (release_fetching h)) calls ->
  fetching bs !! h = Some true ->
  fetching (foldl exec bs calls) !! h = Some true.
Proof.
  revert bs. induction calls as [|c calls IH]; intros bs Hall Hf; cbn [foldl].
  - exact Hf.
  - inversion Hall as [|? ? Hc Hrest]; subst.
    apply IH; [exact Hrest|]. apply exec_keeps_reservation; assumption.
Qed.

(** C3: for a block that is not stored and that nobody is fetching, the
    first [PreFetch] is granted; from then on, whatever calls follow, every
    [PreFetch] of the same hash is refused until the release closure of the
    granted call runs (no other closure deletes the reservation of that
    hash); once it has run a [PreFetch] is granted again, unless the block
    has been stored, in which case it is always refused. *)
Theorem PreFetch_at_most_one (bs : MemBS) (h : Hash) :
  idx bs !! h = None -> fetching bs !! h <> Some true ->
  (PreFetch bs h).1.1 = true /\
  (PreFetch bs h).1.2 = release_fetching h /\
  (forall calls,
     Forall (fun c => c <> CallRelease (release_fetching h)) calls ->
     let bs' := foldl exec (PreFetch bs h).2 calls in
     (PreFetch bs' h).1.1 = false /\
     (idx bs' !! h = None ->
      (PreFetch (run_release (PreFetch bs h).1.2 bs') h).1.1 = true)) /\
  (forall bs0, is_Some (idx bs0 !! h) -> (PreFetch bs0 h).1.1 = false).
Proof.
  intros Hidx Hfree. rewrite (PreFetch_granted bs h Hidx Hfree). cbn [fst snd].
  split; [reflexivity|]. split; [reflexivity|]. split.
  - intros calls Hall.
    match goal with |- context [PreFetch ?st h] => set (bs' := st) end.
    assert (Hres : fetching bs' !! h = Some true).
    { apply run_keeps_reservation; [exact Hall|]. cbn [fetching].
      apply lookup_insert_eq. }
    split.
    + rewrite PreFetch_reserved by exact Hres. reflexivity.
    + intros Hnot. rewrite PreFetch_granted; [reflexivity|exact Hnot|].
      cbn [run_release fetching]. rewrite lookup_delete_eq. discriminate.
  - intros bs0 Hs. rewrite PreFetch_stored by exact Hs. reflexivity.
Qed.

End PreFetchFacts.

Section PreFetchWitness.
Import MemStore Fixture.

Lemma PreFetch_at_most_one_witness :
  let h := Node.zeroHash in
  let bs1 := (PreFetch NewMemBS h).2 in
  (PreFetch NewMemBS h).1.1 = true /\
  (PreFetch bs1 h).1.1 = false /\
  (PreFetch (@exec exampleHasher bs1 (CallPreFetch h)) h).1.1 = false /\
  (PreFetch (run_release (release_fetching h) bs1) h).1.1 = true.
Proof.
  intros h bs1.
  destruct (@PreFetch_at_most_one exampleHasher NewMemBS h) as (H1 & H2 & H3 & H4).
  - reflexivity.
  - vm_compute. discriminate.
  - split; [exact H1|]. split; [|split].
    + apply (H3 []). constructor.
    + apply (H3 [CallPreFetch h]). repeat constructor. discriminate.
    + rewrite <- H2. apply (H3 []); [constructor|reflexivity].
Defined.

End PreFetchWitness.

(** ** The reconnect loop *)

Section ReconnectFacts.
Import Peers.

Lemma int64_congr v : int64 v mod 2 ^ 64 = v mod 2 ^ 64.
Proof.
  unfold int64. cbv zeta.
  destruct (Z.ltb_spec (v mod 2 ^ 64) (2 ^ 63)).
  - apply Z.mod_mod. lia.
  - replace (v mod 2 ^ 64 - 2 ^ 64) with (v mod 2 ^ 64 + (-1) * 2 ^ 64) by lia.
    rewrite Z.mod_add by lia. apply Z.mod_mod. lia.
Qed.

Lemma int64_multiple v : v mod 2 ^ 64 = 0 -> int64 v = 0.
Proof. intros Hv. unfold int64. rewrite Hv. reflexivity. Qed.

Lemma reconnect_delay_capped attempt : reconnect_delay attempt <= Minute.
Proof.
  unfold reconnect_delay. cbv zeta.
  destruct (Z.gtb_spec (int64 (baseReconnectDelay * int64 (Z.shiftl 1 attempt)))
              (1 * Minute)); lia.
Qed.

(** Up to attempt 32 the product fits 64 bits and the delay is the capped
    exponential. *)
Lemma reconnect_delay_exact attempt :
  0 <= attempt <= 32 ->
  reconnect_delay attempt = Z.min (2 * Second * 2 ^ attempt) Minute /\
  0 < reconnect_delay attempt.
Proof.
  intros Hr.
  assert (Htable : forallb (fun k =>
            (reconnect_delay (Z.of_nat k)
               =? Z.min (2 * Second * 2 ^ Z.of_nat k) Minute)
            && (0 <? reconnect_delay (Z.of_nat k))) (seq 0 33) = true)
    by (vm_compute; reflexivity).
  rewrite forallb_forall in Htable.
  assert (Hin : In (Z.to_nat attempt) (seq 0 33)) by (apply in_seq; lia).
  apply Htable in Hin. rewrite Z2Nat.id in Hin by lia.
  apply andb_prop in Hin as [Heq Hpos].
  apply Z.eqb_eq in Heq. apply Z.ltb_lt in Hpos. split; assumption.
Qed.

(** From attempt 54 on the product is a multiple of 2^64: no delay at all. *)
Lemma reconnect_delay_vanishes attempt :
  54 <= attempt -> reconnect_delay attempt = 0.
Proof.
  intros Hr. unfold reconnect_delay. cbv zeta.
  assert (Hz : int64 (baseReconnectDelay * int64 (Z.shiftl 1 attempt)) = 0).
  { apply int64_multiple.
    rewrite <- Z.mul_mod_idemp_r, int64_congr, Z.mul_mod_idemp_r by lia.
    rewrite Z.shiftl_mul_pow2, Z.mul_1_l by lia.
    replace attempt with ((attempt - 54) + 54) by lia.
    rewrite Z.pow_add_r by lia.
    replace (baseReconnectDelay * (2 ^ (attempt - 54) * 2 ^ 54))
      with (1953125 * 2 ^ (attempt - 54) * 2 ^ 64)
      by (unfold baseReconnectDelay, Second; lia).
    apply Z.mod_mul. lia. }
  rewrite Hz. reflexivity.
Qed.

(** C6, on the code: the delay is the capped exponential only up to attempt
    32.  At attempt 33 the 64-bit product wraps to a negative duration, which
    the cap lets through, and from attempt 54 on the delay is zero, where
    the claim has 60 seconds. *)
Theorem reconnect_delay_wraps :
  reconnect_delay 32 = Minute /\
  reconnect_delay 33 = -1266874889709551616 /\
  Z.min (2 * Second * 2 ^ 33) Minute = Minute /\
  reconnect_delay 54 = 0 /\
  reconnect_delay 499 = 0.
Proof. repeat split; vm_compute; reflexivity. Qed.

Lemma retry_from_spec w attempt remaining :
  let r := retry_from w attempt remaining in
  (dials r.1 <= remaining)%nat /\
  match r.2 with
  | GaveUp =>
      dials r.1 = remaining /\
      forall k, (attempt <= k < attempt + remaining)%nat ->
                connect_ok w k = false /\ done_closed w k = false
  | Reconnected =>
      exists k, (attempt <= k < attempt + remaining)%nat /\
                connect_ok w k = true /\ dials r.1 = S (k - attempt) /\
                forall j, (attempt <= j < k)%nat ->
                          connect_ok w j = false /\ done_closed w j = false
  | ShutDown =>
      exists k, (attempt <= k < attempt + remaining)%nat /\
                connect_ok w k = false /\ done_closed w k = true /\
                dials r.1 = S (k - attempt) /\
                forall j, (attempt <= j < k)%nat ->
                          connect_ok w j = false /\ done_closed w j = false
  end.
Proof.
  revert attempt. induction remaining as [|rest IH]; intros attempt; cbn [retry_from].
  - cbn. split; [lia|]. split; [reflexivity|]. intros k Hk. lia.
  - destruct (connect_ok w attempt) eqn:Ec.
    { cbn. split; [lia|]. exists attempt. split; [lia|]. split; [exact Ec|].
      split; [f_equal; lia|]. intros j Hj. lia. }
    destruct (done_closed w attempt) eqn:Ed.
    { cbn. split; [lia|]. exists attempt. split; [lia|]. split; [exact Ec|].
      split; [exact Ed|]. split; [f_equal; lia|]. intros j Hj. lia. }
    specialize (IH (S attempt)). cbv zeta in IH.
    destruct (retry_from w (S attempt) rest) as [trace res].
    cbn [fst snd] in *. destruct IH as (Hle & Hres).
    assert (Hd : dials (Dial attempt :: Wait (reconnect_delay (Z.of_nat attempt)) :: trace)
                 = S (dials trace)) by reflexivity.
    rewrite Hd. clear Hd. split; [lia|].
    assert (Hfirst : forall (k j : nat),
              (forall i, (S attempt <= i < k)%nat ->
                         connect_ok w i = false /\ done_closed w i = false) ->
              (attempt <= j < k)%nat ->
              connect_ok w j = false /\ done_closed w j = false).
    { intros k j Hall Hj. destruct (decide (j = attempt)) as [->|Hne].
      - split; assumption.
      - apply Hall. lia. }
    destruct res.
    + destruct Hres as (k & Hk & Hc & Hn & Hall). exists k.
      split; [lia|]. split; [exact Hc|]. split; [lia|].
      intros j Hj. exact (Hfirst k j Hall Hj).
    + destruct Hres as (k & Hk & Hc & Hdn & Hn & Hall). exists k.
      split; [lia|]. split; [exact Hc|]. split; [exact Hdn|]. split; [lia|].
      intros j Hj. exact (Hfirst k j Hall Hj).
    + destruct Hres as (Hn & Hall). split; [lia|].
      intros k Hk. exact (Hfirst (S attempt + rest)%nat k
                            ltac:(intros i Hi; apply Hall; lia) ltac:(lia)).
Qed.

(** C7: a run of the reconnect loop dials at most 500 times and then ends.
    It gives up exactly after 500 failed dials with no shutdown in between.
    Otherwise it ends at the first dial that succeeds, or at the first wait
    that finds the manager shut down: every earlier dial failed and was
    followed by a wait that ran to its end, and the dial the run ends with
    is the last one it makes. *)
Theorem reconnect_bound (w : World) :
  let r := reconnectWithRetry w in
  (dials r.1 <= 500)%nat /\
  match r.2 with
  | GaveUp =>
      dials r.1 = 500%nat /\
      forall k, (k < 500)%nat -> connect_ok w k = false /\ done_closed w k = false
  | Reconnected =>
      exists k, (k < 500)%nat /\ connect_ok w k = true /\ dials r.1 = S k /\
                forall j, (j < k)%nat ->
                          connect_ok w j = false /\ done_closed w j = false
  | ShutDown =>
      exists k, (k < 500)%nat /\ connect_ok w k = false /\
                done_closed w k = true /\ dials r.1 = S k /\
                forall j, (j < k)%nat ->
                          connect_ok w j = false /\ done_closed w j = false
  end.
Proof.
  pose proof (retry_from_spec w 0 maxRetries) as Hs. cbv zeta in Hs |- *.
  unfold reconnectWithRetry.
  generalize dependent (retry_from w 0 maxRetries). intros [trace res].
  cbn [fst snd]. change maxRetries with 500%nat. intros (Hle & Hres).
  split; [exact Hle|].
  destruct res.
  - destruct Hres as (k & Hk & Hc & Hn & Hall). exists k.
    rewrite Nat.sub_0_r in Hn. split; [lia|]. split; [exact Hc|].
    split; [exact Hn|]. intros j Hj. apply Hall. lia.
  - destruct Hres as (k & Hk & Hc & Hd & Hn & Hall). exists k.
    rewrite Nat.sub_0_r in Hn. split; [lia|]. split; [exact Hc|].
    split; [exact Hd|]. split; [exact Hn|]. intros j Hj. apply Hall. lia.
  - destruct Hres as (Hn & Hall). split; [exact Hn|].
    intros k Hk. apply Hall. lia.
Qed.

(** A peer that never answers, with no shutdown: exactly 500 dials.  A peer
    that answers the third dial: three dials. *)
Lemma reconnect_bound_witness :
  let w := mkWorld (fun _ => false) (fun _ => false) in
  let w2 := mkWorld (fun k => (k =? 2)%nat) (fun _ => false) in
  (dials (reconnectWithRetry w).1 <= 500)%nat /\
  (reconnectWithRetry w).2 = GaveUp /\
  dials (reconnectWithRetry w2).1 = 3%nat.
Proof.
  intros w w2. pose proof (reconnect_bound w) as Hb. cbv zeta in Hb.
  destruct Hb as [Hle _]. split; [exact Hle|]. split.
  - vm_compute. reflexivity.
  - pose proof (reconnect_bound w2) as Hb2. cbv zeta in Hb2.
    destruct Hb2 as [_ Hb2].
    change (reconnectWithRetry w2).2 with Reconnected in Hb2.
    destruct Hb2 as (k & _ & Hc & Hn & _).
    cbn [connect_ok w2] in Hc. apply Nat.eqb_eq in Hc. subst k. exact Hn.
Defined.

End ReconnectFacts.

(** ** The dataset pipeline *)

Section DatasetFacts.
Import Datasets.
Context {Schema Args A E : Type}.
Context `{Pricer Schema Args} `{AccountStore A} `{Engine Schema Args E}.

Lemma compareAndSpend_low (u : DatasetModule A E) price tx :
  Fee (Body tx) < price ->
  compareAndSpend u price tx
  = (u, Some (Wrap "fee is less than price" ErrInsufficientFee)).
Proof.
  intros Hlt. unfold compareAndSpend.
  destruct (Z.ltb_spec (Fee (Body tx)) price); [reflexivity|lia].
Qed.

Lemma compareAndSpend_enough (u : DatasetModule A E) price tx :
  price <= Fee (Body tx) ->
  let sp := mkSpend (Sender tx) price (int64 (Nonce (Body tx))) in
  compareAndSpend u price tx = call_Spend u sp /\
  spends (compareAndSpend u price tx).1 = spends u ++ [sp] /\
  accountStore (compareAndSpend u price tx).1 = (store_Spend (accountStore u) sp).1 /\
  engine (compareAndSpend u price tx).1 = engine u.
Proof.
  intros Hge sp. unfold compareAndSpend.
  destruct (Z.ltb_spec (Fee (Body tx)) price); [lia|]. fold sp.
  unfold call_Spend. destruct (store_Spend (accountStore u) sp) as [a err].
  repeat split.
Qed.

(** C5: in [Deploy], [Drop] and [Execute], once the price is computed, a fee
    below the price ends the call with [ErrInsufficientFee] and the module
    untouched: [Spend] is not called.  Otherwise [Spend] is called once, for
    the price and not for the fee.  In both cases the [Fee] of the response
    is the price and its [GasUsed] is 0. *)
Theorem fee_checked_before_spend (u : DatasetModule A E) (tx : Transaction) :
  let low := Wrap "fee is less than price" ErrInsufficientFee in
  let sp := fun price => mkSpend (Sender tx) price (int64 (Nonce (Body tx))) in
  let refused :=
    fun price (r : DatasetModule A E * ExecutionResponse * option error) =>
    r = (u, mkResp price 0, Some low) /\ Is low ErrInsufficientFee = true in
  let charged :=
    fun price (r : DatasetModule A E * ExecutionResponse * option error) =>
    spends r.1.1 = spends u ++ [sp price] /\
    Amount (sp price) = price /\
    accountStore r.1.1 = (store_Spend (accountStore u) (sp price)).1 /\
    RespFee r.1.2 = price /\ GasUsed r.1.2 = 0 in
  (forall schema pd, PriceDeploy schema = inl pd ->
     (Fee (Body tx) < pd -> refused pd (Deploy u schema tx)) /\
     (pd <= Fee (Body tx) -> charged pd (Deploy u schema tx))) /\
  (forall dbid pr, PriceDrop dbid = inl pr ->
     (Fee (Body tx) < pr -> refused pr (Drop u dbid tx)) /\
     (pr <= Fee (Body tx) -> charged pr (Drop u dbid tx))) /\
  (forall dbid action args pe, PriceExecute dbid action args = inl pe ->
     (Fee (Body tx) < pe -> refused pe (Execute u dbid action args tx)) /\
     (pe <= Fee (Body tx) -> charged pe (Execute u dbid action args tx))).
Proof.
  intros low sp refused charged. unfold refused, charged, low.
  split; [|split].
  - intros schema pd Hd. unfold Deploy. rewrite Hd. split.
    + intros Hlt. rewrite compareAndSpend_low by exact Hlt.
      split; reflexivity.
    + intros Hge. destruct (compareAndSpend_enough u pd tx Hge) as (_ & Hs & Ha & _).
      fold (sp pd) in Hs, Ha.
      destruct (compareAndSpend u pd tx) as [u' [err|]]; cbn [fst snd] in *.
      * split; [exact Hs|]. split; [reflexivity|]. split; [exact Ha|].
        split; reflexivity.
      * destruct (CreateDataset (engine u') schema (getUserIdentifier tx)) as [e [err|]];
          cbn [fst snd spends accountStore];
          (split; [exact Hs|]; split; [reflexivity|]; split; [exact Ha|];
           split; reflexivity).
  - intros dbid pr Hr. unfold Drop. rewrite Hr. split.
    + intros Hlt. rewrite compareAndSpend_low by exact Hlt.
      split; reflexivity.
    + intros Hge. destruct (compareAndSpend_enough u pr tx Hge) as (_ & Hs & Ha & _).
      fold (sp pr) in Hs, Ha.
      destruct (compareAndSpend u pr tx) as [u' [err|]]; cbn [fst snd] in *.
      * split; [exact Hs|]. split; [reflexivity|]. split; [exact Ha|].
        split; reflexivity.
      * destruct (DropDataset (engine u') dbid (getUserIdentifier tx)) as [e [err|]];
          cbn [fst snd spends accountStore];
          (split; [exact Hs|]; split; [reflexivity|]; split; [exact Ha|];
           split; reflexivity).
  - intros dbid action args pe He. unfold Execute. rewrite He. split.
    + intros Hlt. rewrite compareAndSpend_low by exact Hlt.
      split; reflexivity.
    + intros Hge. destruct (compareAndSpend_enough u pe tx Hge) as (_ & Hs & Ha & _).
      fold (sp pe) in Hs, Ha.
      destruct (compareAndSpend u pe tx) as [u' [err|]]; cbn [fst snd] in *.
      * split; [exact Hs|]. split; [reflexivity|]. split; [exact Ha|].
        split; reflexivity.
      * destruct (engine_Execute (engine u') dbid action args (getUserIdentifier tx))
          as [e [err|]];
          cbn [fst snd spends accountStore];
          (split; [exact Hs|]; split; [reflexivity|]; split; [exact Ha|];
           split; reflexivity).
Qed.

End DatasetFacts.

(** ** Mempool admission *)

Section MempoolFacts.
Import Mempool.

Lemma admitted_of_pool mgr s nonces :
  admitted_of (pool_of mgr s nonces) s = map (fun n => newTx n s) nonces.
Proof.
  unfold admitted_of, pool_of. cbn [admitted].
  induction nonces as [|n ns IH]; [reflexivity|].
  cbn [map List.filter Sender newTx].
  rewrite bool_decide_eq_true_2 by reflexivity. rewrite IH. reflexivity.
Qed.

Lemma gap_of_pool mgr s nonces :
  AcctNonce (default (mkAccount 0 0) (mgr !! s)) = 0 ->
  max_admitted_nonce_gap (pool_of mgr s nonces) s = foldr Z.max 0 nonces.
Proof.
  intros HN. unfold max_admitted_nonce_gap. rewrite admitted_of_pool.
  unfold account_view, pool_of. cbn [accountMgr]. rewrite HN.
  induction nonces as [|n ns IH]; [reflexivity|].
  cbn [map foldr Nonce newTx]. rewrite IH, Z.sub_0_r. reflexivity.
Qed.

Lemma in_pool mgr s nonces n :
  newTx n s ∈ admitted (pool_of mgr s nonces) <-> n ∈ nonces.
Proof.
  unfold pool_of. cbn [admitted]. rewrite list_elem_of_fmap. split.
  - intros (k & Heq & Hk). injection Heq as ->. exact Hk.
  - intros Hn. exists n. split; [reflexivity|exact Hn].
Qed.

(** Admission without gas, for a sender whose on-chain nonce is 0. *)
Lemma applyTransaction_pool mgr s nonces n :
  AcctNonce (default (mkAccount 0 0) (mgr !! s)) = 0 ->
  applyTransaction false (pool_of mgr s nonces) (newTx n s)
  = if bool_decide (n ∈ nonces) then (pool_of mgr s nonces, Some ErrDuplicateTx)
    else if n <=? 0 then (pool_of mgr s nonces, Some ErrStaleNonce)
    else if n >? foldr Z.max 0 nonces + 1
         then (pool_of mgr s nonces, Some ErrOutOfOrderNonce)
         else (pool_of mgr s (nonces ++ [n]), None).
Proof.
  intros HN. unfold applyTransaction. cbn [Sender Nonce newTx andb].
  rewrite (bool_decide_ext _ _ (in_pool mgr s nonces n)).
  destruct (bool_decide (n ∈ nonces)); [reflexivity|].
  rewrite gap_of_pool by exact HN.
  unfold account_view. change (accountMgr (pool_of mgr s nonces)) with mgr.
  rewrite HN. rewrite Z.add_0_l.
  destruct (n <=? 0); [reflexivity|].
  destruct (n >? foldr Z.max 0 nonces + 1); [reflexivity|].
  unfold pool_of. cbn [accountMgr admitted]. rewrite map_app. reflexivity.
Qed.

Lemma tracked_nonce_pool mgr s nonces :
  AcctNonce (default (mkAccount 0 0) (mgr !! s)) = 0 ->
  tracked_nonce (pool_of mgr s nonces) s = foldr Z.max 0 nonces.
Proof.
  intros HN. unfold tracked_nonce. rewrite gap_of_pool by exact HN.
  unfold account_view, pool_of. cbn [accountMgr]. rewrite HN. reflexivity.
Qed.

(** C4: without gas, for a sender whose committed nonce is 0 and an empty
    pool: nonces 1 and 2 are admitted, nonce 2 again is refused as a
    duplicate, nonce 4 is refused as out of order, nonce 3 is admitted and
    then nonce 4 is admitted, the tracked nonce ending at 4. *)
Theorem mempool_nonce_ordering (mgr : gmap string Account) (s : string) :
  AcctNonce (default (mkAccount 0 0) (mgr !! s)) = 0 ->
  let submit := fun m n => applyTransaction false m (newTx n s) in
  let m0 := mkMempool mgr [] in
  let r1 := submit m0 1 in
  let r2 := submit r1.1 2 in
  let r3 := submit r2.1 2 in
  let r4 := submit r3.1 4 in
  let r5 := submit r4.1 3 in
  let r6 := submit r5.1 4 in
  (r1.2 = None /\ tracked_nonce r1.1 s = 1) /\
  (r2.2 = None /\ tracked_nonce r2.1 s = 2) /\
  (r3.2 = Some ErrDuplicateTx /\ tracked_nonce r3.1 s = 2) /\
  (r4.2 = Some ErrOutOfOrderNonce /\ tracked_nonce r4.1 s = 2) /\
  (r5.2 = None /\ tracked_nonce r5.1 s = 3) /\
  (r6.2 = None /\ tracked_nonce r6.1 s = 4).
Proof.
  intros HN submit m0 r1 r2 r3 r4 r5 r6.
  assert (H1 : r1 = (pool_of mgr s [1], None)).
  { unfold r1, submit. change m0 with (pool_of mgr s []).
    rewrite applyTransaction_pool by exact HN. reflexivity. }
  assert (H2 : r2 = (pool_of mgr s [1; 2], None)).
  { unfold r2, submit. rewrite H1. cbn [fst].
    rewrite applyTransaction_pool by exact HN. reflexivity. }
  assert (H3 : r3 = (pool_of mgr s [1; 2], Some ErrDuplicateTx)).
  { unfold r3, submit. rewrite H2. cbn [fst].
    rewrite applyTransaction_pool by exact HN. reflexivity. }
  assert (H4 : r4 = (pool_of mgr s [1; 2], Some ErrOutOfOrderNonce)).
  { unfold r4, submit. rewrite H3. cbn [fst].
    rewrite applyTransaction_pool by exact HN. reflexivity. }
  assert (H5 : r5 = (pool_of mgr s [1; 2; 3], None)).
  { unfold r5, submit. rewrite H4. cbn [fst].
    rewrite applyTransaction_pool by exact HN. reflexivity. }
  assert (H6 : r6 = (pool_of mgr s [1; 2; 3; 4], None)).
  { unfold r6, submit. rewrite H5. cbn [fst].
    rewrite applyTransaction_pool by exact HN. reflexivity. }
  rewrite H1, H2, H3, H4, H5, H6. cbn [fst snd].
  rewrite !tracked_nonce_pool by exact HN.
  repeat split.
Qed.

Lemma mempool_nonce_ordering_witness :
  let submit := fun m n => applyTransaction false m (newTx n "A") in
  let m0 := mkMempool ∅ [] in
  let r1 := submit m0 1 in
  let r2 := submit r1.1 2 in
  let r3 := submit r2.1 2 in
  let r4 := submit r3.1 4 in
  let r5 := submit r4.1 3 in
  let r6 := submit r5.1 4 in
  (r1.2 = None /\ tracked_nonce r1.1 "A" = 1) /\
  (r2.2 = None /\ tracked_nonce r2.1 "A" = 2) /\
  (r3.2 = Some ErrDuplicateTx /\ tracked_nonce r3.1 "A" = 2) /\
  (r4.2 = Some ErrOutOfOrderNonce /\ tracked_nonce r4.1 "A" = 2) /\
  (r5.2 = None /\ tracked_nonce r5.1 "A" = 3) /\
  (r6.2 = None /\ tracked_nonce r6.1 "A" = 4).
Proof.
  apply (mempool_nonce_ordering ∅ "A"). reflexivity.
Defined.

End MempoolFacts.

Section DatasetWitness.
Import Datasets Fixture.

Lemma fee_checked_before_spend_witness :
  let u := mkModule 100 [] tt in
  let tx := exampleTx 7 in
  @Deploy _ _ _ _ examplePricer exampleAccounts exampleEngine u tt tx
  = (u, mkResp 10 0, Some (Wrap "fee is less than price" ErrInsufficientFee)) /\
  spends (@Drop _ _ _ _ examplePricer exampleAccounts exampleEngine u "db" tx).1.1
  = [mkSpend [x41] 5 1] /\
  accountStore
    (@Execute _ _ _ _ examplePricer exampleAccounts exampleEngine u "db" "act" tt tx).1.1
  = 97 /\
  RespFee
    (@Execute _ _ _ _ examplePricer exampleAccounts exampleEngine u "db" "act" tt tx).1.2
  = 3.
Proof.
  intros u tx.
  pose proof (@fee_checked_before_spend _ _ _ _ examplePricer exampleAccounts
                exampleEngine u tx) as Hf.
  cbv zeta in Hf. destruct Hf as (Hd & Hr & He).
  destruct (Hd tt 10 eq_refl) as [Hlow _].
  destruct (Hr "db"%string 5 eq_refl) as [_ Hdrop].
  destruct (He "db"%string "act"%string tt 3 eq_refl) as [_ Hexec].
  split; [|split; [|split]].
  - apply Hlow. vm_compute. reflexivity.
  - apply Hdrop. vm_compute. discriminate.
  - apply Hexec. vm_compute. discriminate.
  - apply Hexec. vm_compute. discriminate.
Defined.

End DatasetWitness.

(** * Further properties of the modelled code *)

(** ** Codecs: framing, canonical encodings, truncation *)

Section CodecFraming.

Lemma ReadFull_consumed r buf b n r' :
  ReadFull r buf = (b, n, None, r') ->
  pending r = b ++ pending r' /\ length b = length buf /\
  n = Z.of_nat (length buf) /\ final r' = final r /\ eager r' = eager r.
Proof.
  unfold ReadFull.
  destruct (Nat.leb_spec (length buf) (length (pending r))) as [Hle|Hlt];
    intros Heq; inversion Heq; subst. cbn [pending final eager].
  rewrite take_drop, length_take. repeat split. lia.
Qed.

Lemma binary_Read_consumed k r v r' :
  binary_Read k r = (inr v, r') ->
  exists bs, pending r = bs ++ pending r' /\ length bs = k /\
             v = le_get bs /\ final r' = final r /\ eager r' = eager r.
Proof.
  unfold binary_Read.
  destruct (ReadFull r (make k)) as [[[b n] [e|]] r0] eqn:E; [discriminate|].
  intros Heq. inversion Heq; subst.
  apply ReadFull_consumed in E as (Hp & Hl & _ & Hf & He).
  rewrite length_make in Hl. exists b. repeat split; assumption.
Qed.

Lemma uint64_int64_le_get bs :
  length bs = 8%nat -> uint64 (int64 (le_get bs)) = le_get bs.
Proof.
  intros Hk. pose proof (le_get_range bs) as Hr. rewrite Hk in Hr.
  change (8 * Z.of_nat 8) with 64 in Hr.
  unfold uint64. rewrite int64_congr. apply Z.mod_small. exact Hr.
Qed.

Lemma le_put_8_get bs : length bs = 8%nat -> le_put 8 (le_get bs) = bs.
Proof. intros Hk. rewrite <- Hk at 1. apply le_put_get. Qed.

Lemma le_put_4_get bs : length bs = 4%nat -> le_put 4 (le_get bs) = bs.
Proof. intros Hk. rewrite <- Hk at 1. apply le_put_get. Qed.

Lemma int64_range v : is_int64 (int64 v).
Proof.
  unfold is_int64, int64. cbv zeta.
  pose proof (Z.mod_pos_bound v (2 ^ 64) ltac:(lia)) as Hr.
  destruct (Z.ltb_spec (v mod 2 ^ 64) (2 ^ 63)); lia.
Qed.

Lemma blockAnnMsg_encoding_length m :
  length (blockAnnMsg.MarshalBinary m).1
  = (length (blockAnnMsg.Hash m) + 8 + length (blockAnnMsg.AppHash m) + 8
     + length (blockAnnMsg.LeaderSig m))%nat.
Proof. rewrite blockAnnMsg_encoding, !length_app, !length_le_put. lia. Qed.

(** What a successful [ReadFrom] consumed is the encoding of its result;
    the count it returns is 112 whatever it consumed. *)
Lemma blockAnnMsg_ReadFrom_consumed m0 r m n r' :
  blockAnnMsg.wf m0 ->
  blockAnnMsg.ReadFrom m0 r = (m, n, None, r') ->
  pending r = (blockAnnMsg.MarshalBinary m).1 ++ pending r' /\
  n = 112 /\
  final r' = final r /\ blockAnnMsg.wf m /\
  (length (blockAnnMsg.LeaderSig m) <= 1000)%nat.
Proof.
  intros (Hh & _ & Ha). unfold blockAnnMsg.ReadFrom.
  destruct (ReadFull r (blockAnnMsg.Hash m0)) as [[[h1 n1] [e1|]] r1] eqn:E1;
    [intros Heq; inversion Heq|].
  apply ReadFull_consumed in E1 as (P1 & L1 & N1 & F1 & _).
  destruct (binary_Read 8 r1) as [[e2|hv] r2] eqn:E2; [intros Heq; inversion Heq|].
  apply binary_Read_consumed in E2 as (b2 & P2 & L2 & V2 & F2 & _).
  destruct (ReadFull r2 (blockAnnMsg.AppHash m0)) as [[[a3 n3] [e3|]] r3] eqn:E3;
    [intros Heq; inversion Heq|].
  apply ReadFull_consumed in E3 as (P3 & L3 & N3 & F3 & _).
  destruct (binary_Read 8 r3) as [[e4|sl] r4] eqn:E4; [intros Heq; inversion Heq|].
  apply binary_Read_consumed in E4 as (b4 & P4 & L4 & V4 & F4 & _).
  destruct (Z.gtb_spec sl 1000) as [Hbig|Hok]; [intros Heq; inversion Heq|].
  destruct (ReadFull r4 (make (Z.to_nat sl))) as [[[s5 n5] [e5|]] r5] eqn:E5;
    intros Heq; inversion Heq; subst m n r'. clear Heq.
  apply ReadFull_consumed in E5 as (P5 & L5 & N5 & F5 & _).
  rewrite length_make in L5, N5.
  pose proof (le_get_range b4) as R4. rewrite <- V4 in R4.
  assert (Hsl : Z.of_nat (length s5) = sl) by lia.
  rewrite blockAnnMsg_encoding.
  cbn [blockAnnMsg.Hash blockAnnMsg.Height blockAnnMsg.AppHash blockAnnMsg.LeaderSig].
  split; [|split; [|split; [|split]]].
  - rewrite P1, P2, P3, P4, P5, <- !app_assoc. subst hv.
    rewrite uint64_int64_le_get, le_put_8_get by assumption.
    rewrite Hsl, V4. rewrite uint64_id by (unfold is_uint64; rewrite <- V4; lia).
    rewrite le_put_8_get by assumption. reflexivity.
  - subst n1. rewrite Hh. reflexivity.
  - congruence.
  - unfold blockAnnMsg.wf.
    cbn [blockAnnMsg.Hash blockAnnMsg.Height blockAnnMsg.AppHash].
    split; [|split]; [rewrite L1; exact Hh | apply int64_range | rewrite L3; exact Ha].
  - lia.
Qed.

End CodecFraming.

Section CodecExtras.

(** X1: read from a stream, an encoded block announcement is decoded to the
    message it encodes, and the bytes that follow it stay in the stream; so
    two announcements sent back to back are read one after the other.  The
    count [ReadFrom] returns on success is 112 for every announcement,
    whatever the length of the signature, although the bytes it consumed
    are the 80 header bytes plus the signature, the count [WriteTo] gave
    when it wrote them. *)
Theorem blockAnnMsg_stream_framing (m1 m2 m0 : blockAnnMsg.t) (rest : list byte)
    (fin : error) (eg : bool) :
  blockAnnMsg.wf m1 -> blockAnnMsg.wf m2 -> blockAnnMsg.wf m0 ->
  (length (blockAnnMsg.LeaderSig m1) <= 1000)%nat ->
  (length (blockAnnMsg.LeaderSig m2) <= 1000)%nat ->
  let e1 := (blockAnnMsg.MarshalBinary m1).1 in
  let e2 := (blockAnnMsg.MarshalBinary m2).1 in
  blockAnnMsg.ReadFrom m0 (mkReader (e1 ++ rest) fin eg)
  = (m1, 112, None, mkReader rest fin eg) /\
  (let '(r1, _, _, s1) := blockAnnMsg.ReadFrom m0 (mkReader (e1 ++ e2 ++ rest) fin eg) in
   blockAnnMsg.ReadFrom r1 s1 = (m2, 112, None, mkReader rest fin eg)) /\
  Z.of_nat (length e1) = 80 + Z.of_nat (length (blockAnnMsg.LeaderSig m1)) /\
  (blockAnnMsg.WriteTo m1 []).1.2 = Z.of_nat (length e1) /\
  (forall r m n r', blockAnnMsg.ReadFrom m0 r = (m, n, None, r') -> n = 112).
Proof.
  intros W1 W2 W0 S1 S2 e1 e2.
  assert (Hlen : Z.of_nat (length e1)
                 = 80 + Z.of_nat (length (blockAnnMsg.LeaderSig m1))).
  { destruct W1 as (Hh & _ & Ha). unfold e1.
    rewrite blockAnnMsg_encoding_length, Hh, Ha. unfold HashLen. lia. }
  split; [|split; [|split; [|split]]].
  - unfold e1. apply blockAnnMsg_ReadFrom_encoded; assumption.
  - unfold e1. rewrite blockAnnMsg_ReadFrom_encoded by assumption.
    unfold e2. apply blockAnnMsg_ReadFrom_encoded; assumption.
  - exact Hlen.
  - rewrite Hlen. destruct W1 as (Hh & _ & Ha).
    unfold blockAnnMsg.WriteTo, AppendUint64. cbn [fst snd app].
    rewrite length_le_put, Hh, Ha. unfold HashLen. lia.
  - intros r m n r' E.
    apply blockAnnMsg_ReadFrom_consumed in E as (_ & Hn & _); [exact Hn | exact W0].
Qed.

Lemma blockAnnMsg_stream_framing_witness :
  let m1 := blockAnnMsg.mk zeroHash 7 zeroHash [x01; x02] in
  let m2 := blockAnnMsg.mk zeroHash 8 zeroHash [] in
  blockAnnMsg.ReadFrom blockAnnMsg.zero
    (mkReader ((blockAnnMsg.MarshalBinary m1).1 ++ [xff]) EOF false)
  = (m1, 112, None, mkReader [xff] EOF false) /\
  Z.of_nat (length (blockAnnMsg.MarshalBinary m1).1) = 80 + Z.of_nat 2.
Proof.
  intros m1 m2.
  destruct (blockAnnMsg_stream_framing m1 m2 blockAnnMsg.zero [xff] EOF false)
    as (Hf & _ & Hl & _).
  - repeat split; vm_compute; congruence.
  - repeat split; vm_compute; congruence.
  - repeat split; vm_compute; congruence.
  - vm_compute. lia.
  - vm_compute. lia.
  - split; [exact Hf | exact Hl].
Defined.

(** X2: whatever bytes a block announcement is decoded from, the bytes the
    decoder consumed are exactly the encoding of the message it returns; the
    message has a signature of at most 1000 bytes, and the rest of the data
    is ignored. *)
Theorem blockAnnMsg_decode_canonical (m0 m : blockAnnMsg.t) (data : list byte) :
  blockAnnMsg.wf m0 ->
  blockAnnMsg.UnmarshalBinary m0 data = (m, None) ->
  exists rest,
    data = (blockAnnMsg.MarshalBinary m).1 ++ rest /\
    blockAnnMsg.wf m /\
    (length (blockAnnMsg.LeaderSig m) <= 1000)%nat.
Proof.
  intros W0. unfold blockAnnMsg.UnmarshalBinary.
  destruct (blockAnnMsg.ReadFrom m0 (NewReader data)) as [[[m' n] err] r'] eqn:E.
  intros Heq. inversion Heq; subst.
  apply blockAnnMsg_ReadFrom_consumed in E as (Hp & _ & _ & Hw & Hs); [|exact W0].
  exists (pending r'). cbn [pending NewReader] in Hp. auto.
Qed.

Lemma blockAnnMsg_decode_canonical_witness :
  exists rest,
    make 80 ++ [x09]
    = (blockAnnMsg.MarshalBinary (blockAnnMsg.mk zeroHash 0 zeroHash [])).1 ++ rest.
Proof.
  destruct (blockAnnMsg_decode_canonical blockAnnMsg.zero
              (blockAnnMsg.mk zeroHash 0 zeroHash []) (make 80 ++ [x09]))
    as (rest & Hd & _).
  - repeat split; vm_compute; congruence.
  - vm_compute. reflexivity.
  - exists rest. exact Hd.
Defined.

(** X3: a block announcement cut short is never accepted: decoding any
    proper prefix of an encoding gives an error. *)
Theorem blockAnnMsg_truncated_rejected (m m0 : blockAnnMsg.t) (p q : list byte) :
  blockAnnMsg.wf m -> blockAnnMsg.wf m0 ->
  (length (blockAnnMsg.LeaderSig m) <= 1000)%nat ->
  p ++ q = (blockAnnMsg.MarshalBinary m).1 -> q <> [] ->
  exists e, (blockAnnMsg.UnmarshalBinary m0 p).2 = Some e.
Proof.
  intros Wm W0 Hs Hsplit Hq.
  destruct (blockAnnMsg.UnmarshalBinary m0 p) as [m' [e|]] eqn:E; [eauto|].
  exfalso. unfold blockAnnMsg.UnmarshalBinary in E.
  destruct (blockAnnMsg.ReadFrom m0 (NewReader p)) as [[[m1 n1] err1] r1] eqn:Er.
  inversion E; subst m1 err1. clear E.
  apply blockAnnMsg_ReadFrom_consumed in Er as (Hp & _ & _ & Wm' & Hs'); [|exact W0].
  cbn [pending NewReader] in Hp. set (rest := pending r1) in Hp.
  pose proof (blockAnnMsg_ReadFrom_encoded m' m0 (rest ++ q) EOF false Wm' W0 Hs') as D1.
  pose proof (blockAnnMsg_ReadFrom_encoded m m0 [] EOF false Wm W0 Hs) as D2.
  rewrite app_nil_r in D2. rewrite <- Hsplit, Hp, <- app_assoc in D2.
  rewrite D1 in D2. inversion D2 as [[Hm Hr]].
  apply app_eq_nil in Hr as [_ Hq']. contradiction.
Qed.

Lemma blockAnnMsg_truncated_rejected_witness :
  exists e, (blockAnnMsg.UnmarshalBinary blockAnnMsg.zero (make 79)).2 = Some e.
Proof.
  apply (blockAnnMsg_truncated_rejected
           (blockAnnMsg.mk zeroHash 0 zeroHash [])
           blockAnnMsg.zero (make 79) [x00]).
  - repeat split; vm_compute; congruence.
  - repeat split; vm_compute; congruence.
  - vm_compute. lia.
  - vm_compute. reflexivity.
  - discriminate.
Defined.

(** X4: [WriteTo] appends the encoding of the message to what the buffer
    already holds, and the count it returns is the number of bytes it wrote:
    80 plus the length of the signature. *)
Theorem blockAnnMsg_WriteTo_appends (m : blockAnnMsg.t) (w : list byte) :
  blockAnnMsg.wf m ->
  blockAnnMsg.WriteTo m w
  = (w ++ (blockAnnMsg.MarshalBinary m).1,
     80 + Z.of_nat (length (blockAnnMsg.LeaderSig m)), None) /\
  Z.of_nat (length (blockAnnMsg.MarshalBinary m).1)
  = 80 + Z.of_nat (length (blockAnnMsg.LeaderSig m)).
Proof.
  intros (Hh & _ & Ha). split.
  - rewrite blockAnnMsg_encoding. unfold blockAnnMsg.WriteTo, AppendUint64.
    cbn [app]. rewrite <- !app_assoc, length_le_put, Hh, Ha. unfold HashLen.
    reflexivity.
  - rewrite blockAnnMsg_encoding_length, Hh, Ha. unfold HashLen. lia.
Qed.

Lemma blockAnnMsg_WriteTo_appends_witness :
  let m := blockAnnMsg.mk zeroHash 3 zeroHash [x0a] in
  blockAnnMsg.WriteTo m [x01]
  = ([x01] ++ (blockAnnMsg.MarshalBinary m).1, 80 + Z.of_nat 1, None).
Proof.
  intros m. apply (blockAnnMsg_WriteTo_appends m [x01]).
  repeat split; vm_compute; congruence.
Defined.

End CodecExtras.

Section RequestExtras.

(** X5: the three fixed-size requests are decoded from a buffer exactly when
    the buffer has the size of the request (8, 32 and 12 bytes), the decoded
    fields are in the range of their Go types, and encoding the decoded
    request gives the buffer back. *)
Theorem fixed_requests_canonical (h0 : blockHeightReq.t) (b0 : blockHashReq.t)
    (s0 : snapshotReq.t) (data : list byte) :
  blockHashReq.wf b0 ->
  ((blockHeightReq.UnmarshalBinary h0 data).2 = None <-> length data = 8%nat) /\
  ((blockHashReq.UnmarshalBinary b0 data).2 = None <-> length data = 32%nat) /\
  ((snapshotReq.UnmarshalBinary s0 data).2 = None <-> length data = 12%nat) /\
  (forall r, blockHeightReq.UnmarshalBinary h0 data = (r, None) ->
     blockHeightReq.wf r /\ blockHeightReq.MarshalBinary r = (data, None)) /\
  (forall r, blockHashReq.UnmarshalBinary b0 data = (r, None) ->
     blockHashReq.wf r /\ blockHashReq.MarshalBinary r = (data, None)) /\
  (forall r, snapshotReq.UnmarshalBinary s0 data = (r, None) ->
     snapshotReq.wf r /\ snapshotReq.MarshalBinary r = (data, None)).
Proof.
  intros Wb. unfold blockHashReq.wf in Wb.
  unfold blockHeightReq.UnmarshalBinary, blockHashReq.UnmarshalBinary,
    snapshotReq.UnmarshalBinary, HashLen in *.
  change (8 + 4)%nat with 12%nat.
  split; [|split; [|split; [|split; [|split]]]].
  - destruct (Nat.eqb_spec (length data) 8); cbn [negb snd]; split; congruence.
  - destruct (Nat.eqb_spec (length data) 32); cbn [negb snd]; split; congruence.
  - destruct (Nat.eqb_spec (length data) 12); cbn [negb snd]; split; congruence.
  - intros r. destruct (Nat.eqb_spec (length data) 8) as [Hl|]; cbn [negb];
      [|discriminate].
    intros Heq. inversion Heq; subst r. clear Heq. split.
    + apply int64_range.
    + unfold blockHeightReq.MarshalBinary, AppendUint64, Uint64.
      cbn [app blockHeightReq.Height].
      rewrite take_ge by lia.
      rewrite uint64_int64_le_get, le_put_8_get by assumption. reflexivity.
  - intros r. destruct (Nat.eqb_spec (length data) 32) as [Hl|]; cbn [negb];
      [|discriminate].
    intros Heq. inversion Heq; subst r. clear Heq.
    rewrite copy_at_0_full by congruence. split; [exact Hl|reflexivity].
  - intros r. destruct (Nat.eqb_spec (length data) 12) as [Hl|]; cbn [negb];
      [|discriminate].
    intros Heq. inversion Heq; subst r. clear Heq.
    assert (L8 : length (take 8 data) = 8%nat) by (rewrite length_take; lia).
    assert (L4 : length (take 4 (drop 8 data)) = 4%nat)
      by (rewrite length_take, length_drop; lia).
    unfold Uint64, Uint32. rewrite !take_take. cbn [Nat.min].
    split.
    + split; cbn [snapshotReq.Height snapshotReq.Format].
      * pose proof (le_get_range (take 8 data)) as Hr. rewrite L8 in Hr. exact Hr.
      * pose proof (le_get_range (take 4 (drop 8 data))) as Hr. rewrite L4 in Hr.
        exact Hr.
    + rewrite (surjective_pairing (snapshotReq.MarshalBinary _)).
      rewrite snapshotReq_encoding. cbn [snapshotReq.Height snapshotReq.Format snd].
      rewrite le_put_8_get, le_put_4_get by assumption.
      rewrite (take_ge (drop 8 data)) by (rewrite length_drop; lia).
      rewrite take_drop. reflexivity.
Qed.

Lemma fixed_requests_canonical_witness :
  blockHashReq.MarshalBinary (blockHashReq.UnmarshalBinary (blockHashReq.mk zeroHash)
                                (make 31 ++ [x07])).1
  = (make 31 ++ [x07], None).
Proof.
  destruct (fixed_requests_canonical (blockHeightReq.mk 0) (blockHashReq.mk zeroHash)
              (snapshotReq.mk 0 0) (make 31 ++ [x07])) as (_ & _ & _ & _ & Hb & _).
  - reflexivity.
  - apply (Hb _). reflexivity.
Defined.

(** X6: read from a stream, each fixed-size request is decoded from its own
    bytes only: the count is 8, 32 or 12 and what follows in the stream is
    left for the next read. *)
Theorem fixed_requests_stream_framing (h h0 : blockHeightReq.t)
    (b b0 : blockHashReq.t) (s s0 : snapshotReq.t) (rest : list byte) (fin : error) (eg : bool) :
  blockHeightReq.wf h -> blockHashReq.wf b -> blockHashReq.wf b0 ->
  snapshotReq.wf s ->
  blockHeightReq.ReadFrom h0
    (mkReader ((blockHeightReq.MarshalBinary h).1 ++ rest) fin eg)
  = (h, 8, None, mkReader rest fin eg) /\
  blockHashReq.ReadFrom b0
    (mkReader ((blockHashReq.MarshalBinary b).1 ++ rest) fin eg)
  = (b, 32, None, mkReader rest fin eg) /\
  snapshotReq.ReadFrom s0
    (mkReader ((snapshotReq.MarshalBinary s).1 ++ rest) fin eg)
  = (s, 12, None, mkReader rest fin eg).
Proof.
  intros Wh Wb Wb0 Ws. split; [|split].
  - apply blockHeightReq_ReadFrom_encoded; assumption.
  - apply blockHashReq_ReadFrom_encoded; assumption.
  - apply snapshotReq_ReadFrom_encoded; assumption.
Qed.

Lemma fixed_requests_stream_framing_witness :
  snapshotReq.ReadFrom (snapshotReq.mk 0 0)
    (mkReader ((snapshotReq.MarshalBinary (snapshotReq.mk 5 1)).1 ++ [x01]) EOF false)
  = (snapshotReq.mk 5 1, 12, None, mkReader [x01] EOF false).
Proof.
  apply (fixed_requests_stream_framing (blockHeightReq.mk 0) (blockHeightReq.mk 0)
           (blockHashReq.mk zeroHash) (blockHashReq.mk zeroHash)
           (snapshotReq.mk 5 1) (snapshotReq.mk 0 0) [x01] EOF).
  - vm_compute. split; congruence.
  - reflexivity.
  - reflexivity.
  - repeat split; vm_compute; congruence.
Defined.

End RequestExtras.

Section ChunkAndShortStreams.

(** X7: a snapshot chunk request goes over a stream with its format lost.
    Read back with [ReadFrom], the encoded request gives the height, index
    and hash that were sent and the format the receiver already had, after
    44 bytes, with four zero bytes left unread; and [UnmarshalBinary] takes
    the first 44 bytes of the encoding, again without the format. *)
Theorem snapshotChunkReq_format_lost (r r0 : snapshotChunkReq.t) (rest : list byte)
    (fin : error) (eg : bool) :
  snapshotChunkReq.wf r -> snapshotChunkReq.wf r0 ->
  let got := snapshotChunkReq.mk (snapshotChunkReq.Height r)
               (snapshotChunkReq.Format r0) (snapshotChunkReq.Index r)
               (snapshotChunkReq.Hash r) in
  snapshotChunkReq.ReadFrom r0
    (mkReader ((snapshotChunkReq.MarshalBinary r).1 ++ rest) fin eg)
  = (got, 44, None, mkReader (make 4 ++ rest) fin eg) /\
  snapshotChunkReq.UnmarshalBinary r0 (take 44 (snapshotChunkReq.MarshalBinary r).1)
  = (got, None).
Proof.
  intros W W0 got. split.
  - apply snapshotChunkReq_ReadFrom_encoded; assumption.
  - destruct W as (Hh & Hf & Hi & Hl), W0 as (_ & _ & _ & Hl0).
    rewrite snapshotChunkReq_encoding by assumption.
    set (H8 := le_put 8 (snapshotChunkReq.Height r)).
    set (I4 := le_put 4 (snapshotChunkReq.Index r)).
    assert (L8 : length H8 = 8%nat) by apply length_le_put.
    assert (L4 : length I4 = 4%nat) by apply length_le_put.
    assert (Ht : take 44 (H8 ++ I4 ++ snapshotChunkReq.Hash r ++ make 4)
                 = H8 ++ I4 ++ snapshotChunkReq.Hash r).
    { rewrite !app_assoc. apply take_app_length'.
      rewrite !length_app, L8, L4, Hl. reflexivity. }
    rewrite Ht. unfold snapshotChunkReq.UnmarshalBinary.
    rewrite !length_app, L8, L4, Hl. cbn [Nat.add HashLen Nat.eqb negb].
    rewrite take_app_length' by exact L8.
    rewrite drop_app_length' by exact L8.
    rewrite take_app_length' by exact L4.
    replace (drop 12 (H8 ++ I4 ++ snapshotChunkReq.Hash r))
      with (snapshotChunkReq.Hash r)
      by (rewrite app_assoc, drop_app_length'; [reflexivity|];
          rewrite length_app, L8, L4; reflexivity).
    rewrite copy_at_0_full by congruence.
    unfold H8, I4. rewrite <- (app_nil_r (le_put 8 _)), Uint64_put.
    rewrite <- (app_nil_r (le_put 4 _)), Uint32_put.
    rewrite uint64_id, uint32_id by assumption. reflexivity.
Qed.

Lemma snapshotChunkReq_format_lost_witness :
  snapshotChunkReq.ReadFrom snapshotChunkReq.zero
    (mkReader ((snapshotChunkReq.MarshalBinary
                  (snapshotChunkReq.mk 1 2 3 zeroHash)).1 ++ []) EOF false)
  = (snapshotChunkReq.mk 1 0 3 zeroHash, 44, None, mkReader (make 4 ++ []) EOF false).
Proof.
  apply (snapshotChunkReq_format_lost (snapshotChunkReq.mk 1 2 3 zeroHash)
           snapshotChunkReq.zero [] EOF).
  - repeat split; vm_compute; congruence.
  - repeat split; vm_compute; congruence.
Defined.




End ChunkAndShortStreams.

Section RequestResponse.

(** X9: what the requester learns from [request] when the write went
    through and the reply ends cleanly: content exactly when the reply, cut
    at the limit, is neither empty nor the single byte 0x00; otherwise an
    error that [errors.Is] recognises, through the wrapping, as
    [ErrNotFound] exactly for the byte 0x00 and as [ErrNoResponse] exactly
    for the empty reply.  A failed write is reported wrapped as well. *)
Theorem request_outcomes (data req : list byte) (limit : Z) :
  let resp := take (Z.to_nat limit) data in
  let r := request (mkRW None (NewReader data)) req limit in
  (r.2 = None <-> resp <> [] /\ resp <> [x00]) /\
  (r.2 = None -> r.1 = resp) /\
  (forall err, r.2 = Some err ->
     r.1 = [] /\
     (Is err ErrNotFound = true <-> resp = [x00]) /\
     (Is err ErrNoResponse = true <-> resp = [])) /\
  (forall e reply target,
     match request (mkRW (Some e) reply) req limit with
     | (body, Some err) => body = [] /\ Is err target = Is e target
     | (_, None) => False
     end).
Proof.
  intros resp r. unfold r, request. cbn [write_err reply].
  pose proof (readResp_clean data limit) as Hc. fold resp in Hc. cbv zeta in Hc.
  rewrite Hc.
  destruct (decide (resp = [])) as [Hnil|Hn];
    [|destruct (decide (resp = [x00])) as [Hone|Ho]]; cbn [fst snd].
  - split; [|split; [|split]].
    + split; [discriminate|]. intros [Hn _]. contradiction.
    + discriminate.
    + intros err Heq. inversion Heq; subst err. cbn [Is].
      split; [reflexivity|]. split; split; try discriminate; try reflexivity.
      * intros Ho. congruence.
      * intros _. exact Hnil.
    + intros e reply target. split; reflexivity.
  - split; [|split; [|split]].
    + split; [discriminate|]. intros [_ Ho]. contradiction.
    + discriminate.
    + intros err Heq. inversion Heq; subst err. cbn [Is].
      split; [reflexivity|]. split; split; try discriminate; try reflexivity.
      * intros _. exact Hone.
      * intros Hnil. congruence.
    + intros e reply target. split; reflexivity.
  - split; [|split; [|split]].
    + split; [intros _; split; assumption | reflexivity].
    + reflexivity.
    + intros err Heq. discriminate.
    + intros e reply target. split; reflexivity.
Qed.

(** What [io.ReadAll] gets through the limit from any stream. *)
Lemma ReadAll_LimitReader rd limit :
  ReadAll (LimitReader rd limit)
  = if (limit <=? 0) || (limit <? Z.of_nat (length (pending rd)))
       || ((limit =? Z.of_nat (length (pending rd))) && negb (eager rd))
    then (take (Z.to_nat limit) (pending rd), None)
    else (pending rd, match final rd with EOF => None | e => Some e end).
Proof.
  unfold ReadAll, LimitReader.
  destruct (Z.leb_spec limit 0) as [Hle|Hgt]; cbn [orb pending final].
  - replace (Z.to_nat limit) with 0%nat by lia. reflexivity.
  - destruct (Z.ltb_spec limit (Z.of_nat (length (pending rd)))) as [Hin|Hout];
      cbn [orb pending final]; [reflexivity|].
    destruct (Z.eqb_spec limit (Z.of_nat (length (pending rd)))) as [Heq|Hne];
      cbn [andb]; [|reflexivity].
    destruct (eager rd); cbn [negb pending final]; [reflexivity|].
    rewrite take_ge by lia. reflexivity.
Qed.

(** On a stream that ends cleanly it makes no difference whether [io.EOF]
    comes with the last bytes or after them. *)
Lemma readResp_EOF data eg limit :
  readResp (mkReader data EOF eg) limit = readResp (NewReader data) limit.
Proof.
  unfold readResp. rewrite !ReadAll_LimitReader. unfold NewReader.
  cbn [pending final eager].
  destruct ((limit <=? 0) || (limit <? Z.of_nat (length data))
            || ((limit =? Z.of_nat (length data)) && negb eg)) eqn:E1;
    destruct ((limit <=? 0) || (limit <? Z.of_nat (length data))
              || ((limit =? Z.of_nat (length data)) && negb false)) eqn:E2;
    try reflexivity.
  - cbn [negb] in E2. rewrite andb_true_r in E2.
    apply orb_false_elim in E2 as [E2 E3]. apply orb_false_elim in E2 as [E2 E4].
    rewrite E2, E4, E3 in E1. discriminate.
  - cbn [negb] in E2. rewrite andb_true_r in E2.
    apply orb_false_elim in E1 as [E1 E3]. apply orb_false_elim in E1 as [E1 E4].
    rewrite take_ge; [reflexivity|].
    apply Z.ltb_ge in E4. lia.
Qed.

(** X10: a transport error of the stream makes [readResp] return that error
    and none of the bytes that had arrived, when it hits before [limit]
    bytes were delivered, and also when the stream delivers exactly [limit]
    bytes and returns the error together with the last of them.  When the
    stream has more than [limit] bytes, or exactly [limit] and reports its
    error only on the following read, the reply is cut at the limit and the
    error is never seen.  With a limit of 0 or less nothing is read and the
    result is the no-response error. *)
Theorem readResp_transport_error (rd : Reader) (limit : Z) :
  final rd <> EOF ->
  (0 < limit -> Z.of_nat (length (pending rd)) < limit ->
   readResp rd limit = ([], Some (final rd))) /\
  (0 < limit -> Z.of_nat (length (pending rd)) = limit -> eager rd = true ->
   readResp rd limit = ([], Some (final rd))) /\
  (limit < Z.of_nat (length (pending rd))
   \/ (limit = Z.of_nat (length (pending rd)) /\ eager rd = false) ->
   readResp rd limit = readResp (NewReader (pending rd)) limit) /\
  (limit <= 0 -> readResp rd limit = ([], Some ErrNoResponse)).
Proof.
  intros Hfin. split; [|split; [|split]].
  - intros Hpos Hshort. apply readResp_failed; assumption.
  - intros Hpos Hlen Heg. unfold readResp. rewrite ReadAll_LimitReader.
    destruct (Z.leb_spec limit 0); [lia|].
    destruct (Z.ltb_spec limit (Z.of_nat (length (pending rd)))); [lia|].
    rewrite Heg, andb_false_r. cbn [orb].
    destruct (final rd); try reflexivity. congruence.
  - intros Hcut. unfold readResp. rewrite !ReadAll_LimitReader.
    unfold NewReader. cbn [pending final eager negb]. rewrite andb_true_r.
    destruct (Z.leb_spec limit 0) as [Hle|Hgt]; cbn [orb]; [reflexivity|].
    destruct (Z.ltb_spec limit (Z.of_nat (length (pending rd)))) as [Hin|Hout];
      cbn [orb]; [reflexivity|].
    destruct Hcut as [Hlt|[Heq Heg]]; [lia|].
    rewrite Heg. cbn [negb]. rewrite andb_true_r.
    destruct (Z.eqb_spec limit (Z.of_nat (length (pending rd)))); [reflexivity|lia].
  - intros Hle. unfold readResp. rewrite ReadAll_LimitReader.
    destruct (Z.leb_spec limit 0); [|lia]. cbn [orb].
    replace (Z.to_nat limit) with 0%nat by lia. reflexivity.
Qed.

Lemma readResp_transport_error_witness :
  readResp (mkReader [x01; x02] (New "reset") false) 10 = ([], Some (New "reset")) /\
  readResp (mkReader [x01; x02] (New "reset") true) 2 = ([], Some (New "reset")) /\
  readResp (mkReader [x01; x02] (New "reset") false) 2 = ([x01; x02], None) /\
  readResp (mkReader [x01; x02; x03] (New "reset") true) 2 = ([x01; x02], None).
Proof.
  destruct (readResp_transport_error (mkReader [x01; x02] (New "reset") false) 10)
    as (H1 & _ & _); [discriminate|].
  destruct (readResp_transport_error (mkReader [x01; x02] (New "reset") true) 2)
    as (_ & H2 & _); [discriminate|].
  destruct (readResp_transport_error (mkReader [x01; x02] (New "reset") false) 2)
    as (_ & _ & H3 & _); [discriminate|].
  destruct (readResp_transport_error (mkReader [x01; x02; x03] (New "reset") true) 2)
    as (_ & _ & H4 & _); [discriminate|].
  split; [|split; [|split]].
  - apply H1; vm_compute; reflexivity.
  - apply H2; vm_compute; reflexivity.
  - rewrite H3 by (right; split; vm_compute; reflexivity). reflexivity.
  - rewrite H4 by (left; vm_compute; reflexivity). reflexivity.
Defined.

(** X11: a transaction fetch end to end, the requester's [request] against
    the node's [txGetStreamHandler].  The handler answers once the 32 bytes
    of the hash have arrived, whatever the stream does after them, and
    closes the stream.  When the node has the transaction in its mempool,
    or else in its index, and the raw bytes are not empty, not the single
    byte 0x00 and within the limit, the requester receives exactly those
    bytes; when the node has it nowhere the requester gets an error that is
    [ErrNotFound].  On a stream that ends or fails before 32 bytes arrived
    the handler writes nothing. *)
Theorem tx_fetch_exchange (n : TxSources) (hash : list byte) (limit : Z)
    (after : error) (eg eg' : bool) :
  length hash = HashLen ->
  let reqMsg := (blockHashReq.MarshalBinary (newTxHashReq hash)).1 in
  let answer := txGetStreamHandler n (mkReader reqMsg after eg) in
  let fetch := request (mkRW None (mkReader answer EOF eg')) reqMsg limit in
  (forall raw,
     mp_Get n hash = Some raw \/ (mp_Get n hash = None /\ bki_GetTx n hash = inl raw) ->
     raw <> [] -> raw <> [x00] -> Z.of_nat (length raw) <= limit ->
     fetch = (raw, None)) /\
  (mp_Get n hash = None -> (exists e, bki_GetTx n hash = inr e) -> 1 <= limit ->
   exists err, fetch = ([], Some err) /\ Is err ErrNotFound = true) /\
  (forall s, (length (pending s) < HashLen)%nat -> txGetStreamHandler n s = []).
Proof.
  intros Hlen reqMsg answer fetch.
  assert (Hreq : forall rawOut,
            (match mp_Get n hash with
             | Some rawTx => rawTx
             | None => match bki_GetTx n hash with
                       | inr _ => noData
                       | inl rawTx => rawTx
                       end
             end) = rawOut ->
            answer = rawOut).
  { intros rawOut Hout.
    unfold answer, txGetStreamHandler, reqMsg, blockHashReq.MarshalBinary, newTxHashReq.
    cbn [fst blockHashReq.Hash].
    pose proof (blockHashReq_ReadFrom_encoded (blockHashReq.mk hash)
                  (blockHashReq.mk zeroHash) [] after eg Hlen eq_refl) as Hr.
    unfold blockHashReq.MarshalBinary in Hr. cbn [fst blockHashReq.Hash] in Hr.
    rewrite app_nil_r in Hr. rewrite Hr.
    cbn [blockHashReq.Hash]. exact Hout. }
  split; [|split].
  - intros raw Hsrc Hn Ho Hlim. unfold fetch.
    rewrite (Hreq raw) by (destruct Hsrc as [->|[-> ->]]; reflexivity).
    unfold request. cbn [write_err reply].
    rewrite readResp_EOF, readResp_clean. cbv zeta. rewrite take_ge by lia.
    destruct (decide (raw = [])); [contradiction|].
    destruct (decide (raw = [x00])); [contradiction|reflexivity].
  - intros Hmp [e He] Hlim. unfold fetch.
    rewrite (Hreq noData) by (rewrite Hmp, He; reflexivity).
    unfold request. cbn [write_err reply].
    rewrite readResp_EOF, readResp_clean. cbv zeta. unfold noData.
    replace (Z.to_nat limit) with (S (Z.to_nat limit - 1)) by lia.
    cbn [take]. rewrite take_nil.
    eexists. split; reflexivity.
  - intros s Hshort.
    unfold txGetStreamHandler, blockHashReq.ReadFrom, newTxHashReq, ReadFull.
    cbn [blockHashReq.Hash].
    destruct (Nat.leb_spec (length zeroHash) (length (pending s))) as [Hle|_];
      [|reflexivity].
    unfold zeroHash in Hle. rewrite length_make in Hle. lia.
Qed.

Lemma tx_fetch_exchange_witness :
  let n := mkTxSources (fun _ => None) (fun _ => inl [x0a; x0b]) in
  request
    (mkRW None
       (mkReader (txGetStreamHandler n (mkReader zeroHash (New "deadline") false))
          EOF false))
    zeroHash 100
  = ([x0a; x0b], None).
Proof.
  intros n.
  destruct (tx_fetch_exchange n zeroHash 100 (New "deadline") false false eq_refl)
    as [Hf _].
  apply (Hf [x0a; x0b]).
  - right. split; reflexivity.
  - discriminate.
  - discriminate.
  - vm_compute. discriminate.
Defined.

End RequestResponse.

(** ** The block store: lookups after stores *)

Section StoreLookups.
Import MemStore.
Context `{Hasher}.

Lemma txIds_fold_lookup (v : Hash) (txns : list (list byte)) (m : gmap Hash Hash) k :
  foldl (fun ids tx => <[HashBytes tx := v]> ids) m txns !! k
  = if decide (k ∈ HashBytes <$> txns) then Some v else m !! k.
Proof.
  revert m. induction txns as [|tx txns IH]; intros m; cbn [foldl fmap list_fmap].
  - destruct (decide (k ∈ [])) as [Hin|_]; [inversion Hin|reflexivity].
  - rewrite IH. destruct (decide (k ∈ HashBytes <$> txns)) as [Hin|Hnin].
    + rewrite decide_True by (right; exact Hin). reflexivity.
    + destruct (decide (HashBytes tx = k)) as [Heq|Hne].
      * subst k. rewrite decide_True by left. apply lookup_insert_eq.
      * rewrite lookup_insert_ne by exact Hne.
        rewrite decide_False; [reflexivity|].
        intros Hin. apply elem_of_cons in Hin as [Heq|Hin]; congruence.
Qed.

(** X12: a block that was stored is found again: [Get] by its hash returns
    the block and the app hash stored with it, [GetByHeight] at its height
    returns its hash, the block and the app hash, [Have] reports it, and a
    prefetch of it is refused. *)
Theorem Store_then_lookup (bs : MemBS) (b : Block) (app : Hash) :
  let bs' := Store bs b app in
  Get bs' (BlockHash b) = inl (b, app) /\
  GetByHeight bs' (Height (Header b)) = inl (BlockHash b, b, app) /\
  Have bs' (BlockHash b) = true /\
  PreFetch bs' (BlockHash b) = (false, release_noop, bs').
Proof.
  intros bs'. unfold bs', Get, GetByHeight, Have, PreFetch, Store.
  cbn [blocks hashes idx hash appHash].
  rewrite !lookup_insert_eq. cbn [hash appHash].
  repeat split.
Qed.

(** X13: two blocks with different hashes stored at one height [h], the
    first and then the second.  After the first store [GetByHeight] serves
    the first block at [h]; after the second it serves the second block, its
    hash and its app hash there, and the first block no more.  The first
    block stays retrievable by hash and indexed at [h], but [Get] now
    returns it with the app hash of the second block.  A block stored at
    another height does none of this. *)
Theorem Store_same_height_replaces (bs : MemBS) (b1 b2 : Block) (app1 app2 : Hash)
    (h : Z) :
  Height (Header b1) = h -> Height (Header b2) = h ->
  BlockHash b1 <> BlockHash b2 ->
  let bs1 := Store bs b1 app1 in
  let bs2 := Store bs1 b2 app2 in
  GetByHeight bs1 h = inl (BlockHash b1, b1, app1) /\
  GetByHeight bs2 h = inl (BlockHash b2, b2, app2) /\
  Get bs2 (BlockHash b1) = inl (b1, app2) /\
  Get bs2 (BlockHash b2) = inl (b2, app2) /\
  Have bs2 (BlockHash b1) = true /\
  idx bs2 !! BlockHash b1 = Some h /\
  (forall b3 app3,
     Height (Header b3) <> h -> BlockHash b3 <> BlockHash b1 ->
     GetByHeight (Store bs1 b3 app3) h = inl (BlockHash b1, b1, app1) /\
     Get (Store bs1 b3 app3) (BlockHash b1) = inl (b1, app1)).
Proof.
  intros Hh1 Hh2 Hne bs1 bs2.
  assert (Hidx : idx bs2 !! BlockHash b1 = Some h).
  { unfold bs2, bs1, Store. cbn [idx].
    rewrite lookup_insert_ne by congruence. rewrite lookup_insert_eq.
    congruence. }
  split; [|split; [|split; [|split; [|split; [|split]]]]].
  - unfold bs1, GetByHeight, Store. cbn [blocks hashes]. rewrite Hh1.
    rewrite !lookup_insert_eq. cbn [hash appHash]. rewrite ?lookup_insert_eq.
    reflexivity.
  - unfold bs2, bs1, GetByHeight, Store. cbn [blocks hashes]. rewrite Hh2.
    rewrite !lookup_insert_eq. cbn [hash appHash]. rewrite ?lookup_insert_eq.
    reflexivity.
  - unfold bs2, bs1, Get, Store. cbn [blocks hashes].
    rewrite (lookup_insert_ne _ (BlockHash b2) (BlockHash b1)) by congruence.
    rewrite lookup_insert_eq. rewrite Hh1, Hh2, lookup_insert_eq. reflexivity.
  - unfold bs2, bs1, Get, Store. cbn [blocks hashes].
    rewrite lookup_insert_eq. rewrite Hh2, lookup_insert_eq. reflexivity.
  - unfold Have. apply bool_decide_eq_true_2. rewrite Hidx. eauto.
  - exact Hidx.
  - intros b3 app3 Hh3 Hne3. split.
    + unfold bs1, GetByHeight, Store. cbn [blocks hashes]. rewrite Hh1.
      rewrite (lookup_insert_ne _ (Height (Header b3)) h) by exact Hh3.
      rewrite lookup_insert_eq. cbn [hash appHash].
      rewrite (lookup_insert_ne _ (BlockHash b3) (BlockHash b1)) by exact Hne3.
      rewrite lookup_insert_eq. reflexivity.
    + unfold bs1, Get, Store. cbn [blocks hashes].
      rewrite (lookup_insert_ne _ (BlockHash b3) (BlockHash b1)) by exact Hne3.
      rewrite lookup_insert_eq. rewrite Hh1.
      rewrite (lookup_insert_ne _ (Height (Header b3)) h) by exact Hh3.
      rewrite lookup_insert_eq. reflexivity.
Qed.

End StoreLookups.

Section StoreLookupWitness.
Import MemStore Fixture.

Lemma Store_same_height_replaces_witness :
  let b1 := blockStamped 5 1 [] in
  let b2 := blockStamped 5 2 [] in
  let bs2 := @Store stampHasher (@Store stampHasher NewMemBS b1 [x01]) b2 [x02] in
  GetByHeight bs2 5 = inl (@BlockHash stampHasher b2, b2, [x02]) /\
  Get bs2 (@BlockHash stampHasher b1) = inl (b1, [x02]).
Proof.
  intros b1 b2 bs2.
  destruct (@Store_same_height_replaces stampHasher NewMemBS b1 b2 [x01] [x02] 5)
    as (_ & Hby & Hget & _).
  - reflexivity.
  - reflexivity.
  - vm_compute. discriminate.
  - split; [exact Hby | exact Hget].
Defined.

End StoreLookupWitness.

Section StoreIndex.
Import MemStore.
Context `{Hasher}.

(** X14: storing a block indexes every transaction of the block under the
    hash of that block, so [HaveTx] reports each of them, and leaves the
    index entry of every other transaction hash as it was. *)
Theorem Store_indexes_transactions (bs : MemBS) (b : Block) (app : Hash) :
  let bs' := Store bs b app in
  (forall tx, tx ∈ Txns b ->
     txIds bs' !! HashBytes tx = Some (BlockHash b) /\
     HaveTx bs' (HashBytes tx) = true) /\
  (forall k, (forall tx, tx ∈ Txns b -> HashBytes tx <> k) ->
     txIds bs' !! k = txIds bs !! k /\ HaveTx bs' k = HaveTx bs k).
Proof.
  intros bs'. unfold bs', HaveTx, Store. cbn [txIds]. split.
  - intros tx Hin. rewrite txIds_fold_lookup.
    rewrite decide_True by (apply list_elem_of_fmap; eauto).
    split; [reflexivity|]. apply bool_decide_eq_true_2. eauto.
  - intros k Hk. rewrite txIds_fold_lookup.
    rewrite decide_False; [split; reflexivity|].
    intros Hin. apply list_elem_of_fmap in Hin as (tx & -> & Hin).
    exact (Hk tx Hin eq_refl).
Qed.

(** X15: [Store] is idempotent: storing the same block with the same app
    hash a second time leaves the store as it is after the first time. *)
Theorem Store_idempotent (bs : MemBS) (b : Block) (app : Hash) :
  Store (Store bs b app) b app = Store bs b app.
Proof.
  unfold Store. cbn [idx hashes blocks txResults txIds fetching].
  rewrite !insert_insert_eq. f_equal.
  apply map_eq. intros k. rewrite !txIds_fold_lookup.
  destruct (decide (k ∈ HashBytes <$> Txns b)); reflexivity.
Qed.

(** The three indices of blocks stay consistent under every call. *)
Lemma store_consistent (calls : list call) :
  let bs := foldl exec NewMemBS calls in
  (forall h ht, idx bs !! h = Some ht ->
     exists b, blocks bs !! h = Some b /\ Height (Header b) = ht /\ BlockHash b = h) /\
  (forall h b, blocks bs !! h = Some b -> is_Some (hashes bs !! Height (Header b))) /\
  (forall ht v, hashes bs !! ht = Some v -> is_Some (blocks bs !! hash v)).
Proof.
  induction calls as [|c calls IH] using rev_ind.
  - cbn. repeat split; intros ? ? Hl; rewrite lookup_empty in Hl; discriminate.
  - rewrite foldl_app. cbn [foldl]. cbv zeta in IH.
    set (bs := foldl exec NewMemBS calls) in *. clearbody bs.
    destruct IH as (I1 & I2 & I3).
    destruct c as [b app|h results|h|[|h]]; cbn [exec]; try (repeat split; assumption).
    + unfold Store. cbn [idx hashes blocks]. split; [|split].
      * intros h ht Hl. destruct (decide (BlockHash b = h)) as [<-|Hne].
        -- rewrite lookup_insert_eq in Hl. inversion Hl; subst.
           exists b. rewrite lookup_insert_eq. auto.
        -- rewrite lookup_insert_ne in Hl by exact Hne.
           destruct (I1 h ht Hl) as (b' & Hb' & Hrest).
           exists b'. rewrite lookup_insert_ne by exact Hne. auto.
      * intros h b' Hl. destruct (decide (BlockHash b = h)) as [<-|Hne].
        -- rewrite lookup_insert_eq in Hl. inversion Hl; subst.
           rewrite lookup_insert_eq. eauto.
        -- rewrite lookup_insert_ne in Hl by exact Hne. apply I2 in Hl.
           destruct (decide (Height (Header b) = Height (Header b'))) as [->|Hh].
           ++ rewrite lookup_insert_eq. eauto.
           ++ rewrite lookup_insert_ne by exact Hh. exact Hl.
      * intros ht v Hl. destruct (decide (Height (Header b) = ht)) as [<-|Hh].
        -- rewrite lookup_insert_eq in Hl. inversion Hl; subst. cbn [hash].
           rewrite lookup_insert_eq. eauto.
        -- rewrite lookup_insert_ne in Hl by exact Hh. apply I3 in Hl.
           destruct (decide (BlockHash b = hash v)) as [->|Hne].
           ++ rewrite lookup_insert_eq. eauto.
           ++ rewrite lookup_insert_ne by exact Hne. exact Hl.
    + unfold PreFetch. destruct (idx bs !! h); [repeat split; assumption|].
      destruct (default false (fetching bs !! h)); repeat split; assumption.
Qed.

(** X16: in every state the store reaches from [NewMemBS] through calls of
    [Store], [StoreResults], [PreFetch] and release closures, a block that
    [Have] reports is returned by [Get] and hashes to the hash asked for;
    every height that holds an entry is served by [GetByHeight] with the
    hash and app hash of that entry; and what [Best] reports is either the
    zero values or what [GetByHeight] serves at the best height. *)
Theorem store_lookups_agree (calls : list call) :
  let bs := foldl exec NewMemBS calls in
  (forall h, Have bs h = true ->
     exists b app, Get bs h = inl (b, app) /\ BlockHash b = h) /\
  (forall ht v, hashes bs !! ht = Some v ->
     exists b, GetByHeight bs ht = inl (hash v, b, appHash v)) /\
  (forall order, range_order bs order ->
     Best_over order = (0, Node.zeroHash, Node.zeroHash) \/
     exists b, GetByHeight bs (Best_over order).1.1
               = inl ((Best_over order).1.2, b, (Best_over order).2)).
Proof.
  intros bs. destruct (store_consistent calls) as (I1 & I2 & I3).
  fold bs in I1, I2, I3.
  assert (Hby : forall ht v, hashes bs !! ht = Some v ->
            exists b, GetByHeight bs ht = inl (hash v, b, appHash v)).
  { intros ht v Hl. unfold GetByHeight. rewrite Hl.
    destruct (I3 ht v Hl) as [b Hb]. rewrite Hb. eauto. }
  split; [|split; [exact Hby|]].
  - intros h Hh. unfold Have in Hh. apply bool_decide_eq_true_1 in Hh as [ht Hl].
    destruct (I1 h ht Hl) as (b & Hb & Hht & Hbh).
    destruct (I2 h b Hb) as [v Hv].
    exists b, (appHash v). unfold Get. rewrite Hb, Hv. split; [reflexivity|exact Hbh].
  - intros order Ho. apply Best_over_is_best in Ho. destruct Ho as (_ & _ & Hv).
    destruct (hashes bs !! (Best_over order).1.1) as [v|] eqn:E.
    + right. destruct Hv as [Hx Hy]. rewrite Hx, Hy. apply Hby. exact E.
    + left. exact Hv.
Qed.

End StoreIndex.

Section ResultsAndReservations.
Import MemStore.
Context `{Hasher}.

(** X17: the results stored for a block hash, whether or not a block with
    that hash was stored, are returned by [Results]; [Result] returns the
    result at an index below their number and a wrapped [ErrNotFound] from
    that number on; the results of other hashes are not touched, and a hash
    without results gives [ErrNotFound]. *)
Theorem StoreResults_then_lookup (bs : MemBS) (h : Hash) (results : list TxResult) :
  let bs' := StoreResults bs h results in
  Results bs' h = inl results /\
  (forall i r, results !! i = Some r -> Result bs' h (Z.of_nat i) = inl r) /\
  (forall i, Z.of_nat (length results) <= i ->
     Result bs' h i = inr (Errorf ErrNotFound "invalid block index")) /\
  (forall h', h' <> h ->
     Results bs' h' = Results bs h' /\ forall i, Result bs' h' i = Result bs h' i) /\
  (forall h' i, txResults bs !! h' = None ->
     Results bs h' = inr ErrNotFound /\ Result bs h' i = inr (Plain ErrNotFound)).
Proof.
  intros bs'. unfold bs', Results, Result, StoreResults. cbn [txResults].
  rewrite !lookup_insert_eq. split; [reflexivity|]. split; [|split; [|split]].
  - intros i r Hi. pose proof (lookup_lt_Some _ _ _ Hi) as Hlt.
    destruct (Z.geb_spec (Z.of_nat i) (Z.of_nat (length results))); [lia|].
    rewrite Nat2Z.id, Hi. reflexivity.
  - intros i Hi.
    destruct (Z.geb_spec i (Z.of_nat (length results))); [reflexivity|lia].
  - intros h' Hne. rewrite !lookup_insert_ne by congruence. split; reflexivity.
  - intros h' i Hn. rewrite Hn. split; reflexivity.
Qed.

(** X18: a reservation is not tied to the closure that releases it.  After
    a granted [PreFetch] and its release a second caller is granted the
    hash; if the first caller's closure then runs once more, the second
    caller's reservation is gone and a third [PreFetch] is granted while
    the second fetch is still under way.  Running a release twice in a row
    is the same as running it once, and a reservation of one hash never
    changes the answer for another hash. *)
Theorem PreFetch_release_not_tied (bs : MemBS) (h : Hash) :
  idx bs !! h = None -> fetching bs !! h <> Some true ->
  let rel1 := (PreFetch bs h).1.2 in
  let bs1 := (PreFetch bs h).2 in
  let bs2 := run_release rel1 bs1 in
  let bs3 := (PreFetch bs2 h).2 in
  let bs4 := run_release rel1 bs3 in
  (PreFetch bs2 h).1.1 = true /\
  (PreFetch bs3 h).1.1 = false /\
  (PreFetch bs4 h).1.1 = true /\
  run_release rel1 bs2 = bs2 /\
  (forall h', h' <> h -> (PreFetch bs1 h').1.1 = (PreFetch bs h').1.1).
Proof.
  intros Hidx Hfree. rewrite (PreFetch_granted bs h Hidx Hfree). cbn [fst snd].
  cbn [run_release idx hashes blocks txResults txIds fetching].
  set (bs2 := mkMemBS (idx bs) (hashes bs) (blocks bs) (txResults bs) (txIds bs)
                (delete h (<[h:=true]> (fetching bs)))).
  assert (G2 : PreFetch bs2 h
               = (true, release_fetching h,
                  mkMemBS (idx bs) (hashes bs) (blocks bs) (txResults bs) (txIds bs)
                    (<[h:=true]> (fetching bs2)))).
  { apply (PreFetch_granted bs2 h); [exact Hidx|].
    unfold bs2. cbn [fetching]. rewrite lookup_delete_eq. discriminate. }
  rewrite G2. cbn [fst snd idx hashes blocks txResults txIds fetching].
  split; [reflexivity|]. split; [|split; [|split]].
  - rewrite PreFetch_reserved; [reflexivity|]. cbn [fetching].
    apply lookup_insert_eq.
  - rewrite PreFetch_granted; [reflexivity|exact Hidx|].
    cbn [fetching]. rewrite lookup_delete_eq. discriminate.
  - unfold bs2. f_equal. apply map_eq. intros k.
    destruct (decide (h = k)) as [->|Hne].
    + rewrite !lookup_delete_eq. reflexivity.
    + rewrite !lookup_delete_ne by exact Hne. reflexivity.
  - intros h' Hne. unfold PreFetch. cbn [idx fetching].
    rewrite lookup_insert_ne by congruence.
    destruct (idx bs !! h'); [reflexivity|].
    destruct (default false (fetching bs !! h')); reflexivity.
Qed.

Lemma GetTx_find_first (k : Hash) (txns : list (list byte)) (start : nat) :
  (exists raw, raw ∈ txns /\ HashBytes raw = k) ->
  exists i raw',
    GetTx_find k start txns = Some ((start + i)%nat, raw') /\
    txns !! i = Some raw' /\ HashBytes raw' = k /\
    (forall j raw'', (j < i)%nat -> txns !! j = Some raw'' -> HashBytes raw'' <> k).
Proof.
  revert start. induction txns as [|t txns IH]; intros start (raw & Hin & Hk).
  - inversion Hin.
  - cbn [GetTx_find]. case_bool_decide as Ht.
    + exists 0%nat, t. rewrite Nat.add_0_r. repeat split; try assumption.
      intros j raw'' Hj. lia.
    + apply elem_of_cons in Hin as [->|Hin]; [contradiction|].
      destruct (IH (S start) (ex_intro _ raw (conj Hin Hk)))
        as (i & raw' & Hf & Hl & Hh & Hfirst).
      exists (S i), raw'. replace (start + S i)%nat with (S start + i)%nat by lia.
      repeat split; try assumption.
      intros [|j] raw'' Hj Hl'.
      * cbn in Hl'. inversion Hl'; subst. exact Ht.
      * cbn in Hl'. apply (Hfirst j raw''); [lia|exact Hl'].
Qed.

(** X19: after a block is stored, [GetTx] by the hash of any of its
    transactions finds the first transaction of the block with that hash
    and returns it decoded, with the height and hash of the block and the
    index of that transaction; a decoding error is passed on; on a new
    store every lookup gives [ErrNotFound]. *)
Theorem GetTx_after_Store {Tx D : Type} `{TxDecoder Tx D}
    (bs : MemBS) (b : Block) (app : Hash) (tx : list byte) :
  tx ∈ Txns b ->
  (exists i raw,
     Txns b !! i = Some raw /\ HashBytes raw = HashBytes tx /\
     (forall j raw', (j < i)%nat -> Txns b !! j = Some raw' ->
                     HashBytes raw' <> HashBytes tx) /\
     GetTx (Store bs b app) (HashBytes tx)
     = match Transaction_UnmarshalBinary raw with
       | inl t => inl (t, Height (Header b), BlockHash b, uint32 (Z.of_nat i))
       | inr err => inr (inr err)
       end) /\
  (forall k, GetTx NewMemBS k = inr (inl ErrNotFound)).
Proof.
  intros Hin. split.
  - destruct (GetTx_find_first (HashBytes tx) (Txns b) 0
                (ex_intro _ tx (conj Hin eq_refl)))
      as (i & raw & Hf & Hl & Hh & Hfirst).
    exists i, raw. repeat split; try assumption.
    unfold GetTx.
    assert (Hid : txIds (Store bs b app) !! HashBytes tx = Some (BlockHash b)).
    { unfold Store. cbn [txIds]. rewrite txIds_fold_lookup.
      apply decide_True. apply list_elem_of_fmap. eauto. }
    rewrite Hid.
    unfold Store at 1. cbn [blocks]. rewrite lookup_insert_eq.
    rewrite Hf. cbn [Nat.add].
    destruct (Transaction_UnmarshalBinary raw); reflexivity.
  - intros k. unfold GetTx, NewMemBS. cbn [txIds]. rewrite lookup_empty. reflexivity.
Qed.

End ResultsAndReservations.

Section StoreIndexWitnesses.
Import MemStore Fixture.

Lemma Store_indexes_transactions_witness :
  let b := blockStamped 1 0 [[x01]; [x02]] in
  HaveTx (@Store stampHasher NewMemBS b []) (@HashBytes stampHasher [x02]) = true.
Proof.
  intros b.
  destruct (@Store_indexes_transactions stampHasher NewMemBS b []) as [Hin _].
  apply (Hin [x02]). right. left.
Defined.

Lemma store_lookups_agree_witness :
  let b := blockStamped 1 0 [] in
  exists b' app,
    Get (@foldl MemBS call (@exec stampHasher) NewMemBS [CallStore b [x07]])
      (@BlockHash stampHasher b) = inl (b', app) /\
    @BlockHash stampHasher b' = @BlockHash stampHasher b.
Proof.
  intros b.
  destruct (@store_lookups_agree stampHasher [CallStore b [x07]]) as [Hh _].
  apply Hh. vm_compute. reflexivity.
Defined.

Lemma StoreResults_then_lookup_witness :
  let r := mkTxResult 0 "ok" 0 in
  Result (StoreResults NewMemBS [x01] [r]) [x01] (Z.of_nat 0) = inl r /\
  Result (StoreResults NewMemBS [x01] [r]) [x01] 1
  = inr (Errorf ErrNotFound "invalid block index").
Proof.
  intros r.
  destruct (StoreResults_then_lookup NewMemBS [x01] [r]) as (_ & Hin & Hout & _).
  split.
  - apply (Hin 0%nat r). reflexivity.
  - apply (Hout 1). vm_compute. discriminate.
Defined.

Lemma PreFetch_release_not_tied_witness :
  let h := Node.zeroHash in
  let bs1 := (PreFetch NewMemBS h).2 in
  let bs2 := run_release (release_fetching h) bs1 in
  let bs3 := (PreFetch bs2 h).2 in
  let bs4 := run_release (release_fetching h) bs3 in
  (PreFetch bs3 h).1.1 = false /\ (PreFetch bs4 h).1.1 = true.
Proof.
  intros h bs1 bs2 bs3 bs4.
  destruct (PreFetch_release_not_tied NewMemBS h) as (_ & H3 & H4 & _).
  - reflexivity.
  - vm_compute. discriminate.
  - split; [exact H3|exact H4].
Defined.

Lemma GetTx_after_Store_witness :
  let b := blockStamped 4 0 [[x01]; [x02]] in
  exists i raw,
    Txns b !! i = Some raw /\
    @GetTx stampHasher _ _ rawDecoder (@Store stampHasher NewMemBS b []) 
      (@HashBytes stampHasher [x02])
    = inl (raw, 4, @BlockHash stampHasher b, Bin.uint32 (Z.of_nat i)).
Proof.
  intros b.
  destruct (@GetTx_after_Store stampHasher _ _ rawDecoder NewMemBS b [] [x02])
    as [(i & raw & Hl & _ & _ & Hg) _].
  - right. left.
  - exists i, raw. split; [exact Hl|exact Hg].
Defined.

End StoreIndexWitnesses.

(** ** The peer manager: reconnect runs, timestamps, known peers *)

Section ReconnectRuns.
Import Peers.

Lemma retry_from_trace (w : World) (attempt remaining : nat) :
  exists n,
    (n <= remaining)%nat /\
    (retry_from w attempt remaining).1
    = flat_map (fun k => [Dial k; Wait (reconnect_delay (Z.of_nat k))]) (seq attempt n)
      ++ match (retry_from w attempt remaining).2 with
         | GaveUp => []
         | _ => [Dial (attempt + n)]
         end /\
    (forall k, (attempt <= k < attempt + n)%nat ->
               connect_ok w k = false /\ done_closed w k = false) /\
    match (retry_from w attempt remaining).2 with
    | GaveUp => n = remaining
    | Reconnected => (n < remaining)%nat /\ connect_ok w (attempt + n) = true
    | ShutDown =>
        (n < remaining)%nat /\ connect_ok w (attempt + n) = false /\
        done_closed w (attempt + n) = true
    end.
Proof.
  revert attempt. induction remaining as [|rest IH]; intros attempt; cbn [retry_from].
  - exists 0%nat. cbn. split; [lia|]. split; [reflexivity|].
    split; [intros k Hk; lia | reflexivity].
  - destruct (connect_ok w attempt) eqn:Ec.
    { exists 0%nat. cbn [fst snd seq flat_map app]. rewrite Nat.add_0_r.
      split; [lia|]. split; [reflexivity|].
      split; [intros k Hk; lia|]. split; [lia | exact Ec]. }
    destruct (done_closed w attempt) eqn:Ed.
    { exists 0%nat. cbn [fst snd seq flat_map app]. rewrite Nat.add_0_r.
      split; [lia|]. split; [reflexivity|].
      split; [intros k Hk; lia|]. split; [lia|]. split; [exact Ec | exact Ed]. }
    destruct (IH (S attempt)) as (n & Hn & Ht & Hfail & Hr).
    destruct (retry_from w (S attempt) rest) as [trace res]. cbn [fst snd] in *.
    exists (S n). cbn [seq flat_map app]. rewrite Ht.
    replace (attempt + S n)%nat with (S attempt + n)%nat by lia.
    split; [lia|]. split; [reflexivity|]. split.
    + intros k Hk. destruct (decide (k = attempt)) as [->|Hne].
      * split; assumption.
      * apply Hfail. lia.
    + destruct res.
      * destruct Hr as [Hlt Hc]. split; [lia | exact Hc].
      * destruct Hr as (Hlt & Hc & Hd). split; [lia|]. split; assumption.
      * lia.
Qed.

(** X20: a run of the reconnect loop is a sequence of dials numbered from
    0 and nothing else but the waits between them: each dial before the
    last event failed, did not find the manager shut down, and is followed
    by one wait of the delay computed for its number.  A run that
    reconnects ends with the first dial that succeeds; a run that is shut
    down ends with a failed dial whose wait found the manager shut down;
    both have made fewer than 500 dials before.  A run that gives up has
    made exactly 500 failed dials and has waited after the 500th too. *)
Theorem reconnect_trace_shape (w : World) :
  exists n,
    (n <= 500)%nat /\
    (reconnectWithRetry w).1
    = flat_map (fun k => [Dial k; Wait (reconnect_delay (Z.of_nat k))]) (seq 0 n)
      ++ match (reconnectWithRetry w).2 with
         | GaveUp => []
         | _ => [Dial n]
         end /\
    (forall k, (k < n)%nat -> connect_ok w k = false /\ done_closed w k = false) /\
    match (reconnectWithRetry w).2 with
    | GaveUp => n = 500%nat
    | Reconnected => (n < 500)%nat /\ connect_ok w n = true
    | ShutDown =>
        (n < 500)%nat /\ connect_ok w n = false /\ done_closed w n = true
    end.
Proof.
  unfold reconnectWithRetry.
  destruct (retry_from_trace w 0 maxRetries) as (n & Hn & Ht & Hfail & Hr).
  exists n. cbn [Nat.add] in Ht, Hr. split; [exact Hn|]. split; [exact Ht|].
  split; [|exact Hr]. intros k Hk. apply Hfail. lia.
Qed.

(** X21: the delay of the reconnect loop for every attempt number: never
    above one minute; the capped exponential, at least two seconds, for
    attempts 0 to 32; and zero from attempt 54 on. *)
Theorem reconnect_delay_profile (attempt : Z) :
  reconnect_delay attempt <= Minute /\
  (0 <= attempt <= 32 ->
   reconnect_delay attempt = Z.min (2 * Second * 2 ^ attempt) Minute /\
   2 * Second <= reconnect_delay attempt) /\
  (54 <= attempt -> reconnect_delay attempt = 0).
Proof.
  split; [apply reconnect_delay_capped|]. split.
  - intros Hr. destruct (reconnect_delay_exact attempt Hr) as [He _].
    split; [exact He|]. rewrite He.
    assert (1 <= 2 ^ attempt) by (apply Z.pow_le_mono_r with (b := 0) (c := attempt); lia).
    unfold Minute, Second. apply Z.min_glb; lia.
  - apply reconnect_delay_vanishes.
Qed.

Lemma reconnect_delay_profile_witness :
  reconnect_delay 3 = Z.min (2 * Second * 2 ^ 3) Minute /\ reconnect_delay 60 = 0.
Proof.
  split.
  - apply (reconnect_delay_profile 3). lia.
  - apply (reconnect_delay_profile 60). lia.
Defined.

End ReconnectRuns.

Section DisconnectTimestamps.
Import Peers.

Lemma notify_other pm e p :
  notified e <> p -> disconnects (notify pm e) !! p = disconnects pm !! p.
Proof.
  intros Hne. destruct e as [q|q now closed opened]; cbn [notified] in Hne.
  - cbn [notify Connected disconnects]. apply lookup_delete_ne. exact Hne.
  - unfold notify, Disconnected. destruct closed; cbn [fst disconnects];
      apply lookup_insert_ne; exact Hne.
Qed.

Lemma notify_others pm later p :
  Forall (fun e => notified e <> p) later ->
  disconnects (foldl notify pm later) !! p = disconnects pm !! p.
Proof.
  revert pm. induction later as [|e later IH]; intros pm Hall; cbn [foldl].
  - reflexivity.
  - inversion Hall as [|? ? He Hrest]; subst.
    rewrite IH by exact Hrest. apply notify_other. exact He.
Qed.

(** X22: the disconnect timestamp of a peer follows the last notification
    about it: after a [Disconnected] it is the time of that disconnect,
    whether or not the manager is shut down, and after a [Connected] there
    is none, whatever notifications about other peers come in between or
    after.  A disconnect starts a reconnect task unless the manager is shut
    down, after one second, or three when the connection was open for less
    than a second. *)
Theorem disconnect_timestamp_follows_last (pm : PeerMan) (p : string)
    (later : list notification) :
  Forall (fun e => notified e <> p) later ->
  (forall now closed opened,
     disconnects (foldl notify (notify pm (NotifyDisconnected p now closed opened)) later)
       !! p = Some now) /\
  disconnects (foldl notify (notify pm (NotifyConnected p)) later) !! p = None /\
  (forall now closed opened,
     (Disconnected pm p now closed opened).2
     = if closed then None
       else Some (if opened <? Second then 3 * Second else Second)).
Proof.
  intros Hall. split; [|split].
  - intros now closed opened. rewrite notify_others by exact Hall.
    unfold notify, Disconnected. destruct closed; cbn [fst disconnects];
      apply lookup_insert_eq.
  - rewrite notify_others by exact Hall.
    cbn [notify Connected disconnects]. apply lookup_delete_eq.
  - intros now closed opened. unfold Disconnected.
    destruct closed; [reflexivity|]. cbn [snd].
    destruct (opened <? Second); reflexivity.
Qed.

Lemma disconnect_timestamp_follows_last_witness :
  disconnects
    (foldl notify
       (notify (mkPeerMan ∅) (NotifyDisconnected "p" 42 false 0))
       [NotifyConnected "q"; NotifyDisconnected "q" 50 false 0]) !! "p"%string
  = Some 42.
Proof.
  destruct (disconnect_timestamp_follows_last (mkPeerMan ∅) "p"%string
              [NotifyConnected "q"; NotifyDisconnected "q" 50 false 0]) as [Hd _].
  - repeat constructor; discriminate.
  - exact (Hd 42 false 0).
Defined.

Lemma sweep_loop_spec now (l : list (string * Z)) (m : gmap string Z) (r : list string) :
  NoDup l.*1 ->
  (forall p, p ∉ l.*1 -> (foldl (sweep_step now) (m, r) l).1 !! p = m !! p) /\
  (forall p t, (p, t) ∈ l ->
     (foldl (sweep_step now) (m, r) l).1 !! p
     = if now - t >? disconnectLimit then None else m !! p) /\
  (foldl (sweep_step now) (m, r) l).2
  = r ++ (List.filter (fun e => now - e.2 >? disconnectLimit) l).*1.
Proof.
  revert m r. induction l as [|[k t] l IH]; intros m r Hnd; cbn [foldl].
  - cbn [fst snd List.filter fmap list_fmap]. split; [reflexivity|].
    split; [|rewrite app_nil_r; reflexivity].
    intros p t Hin. inversion Hin.
  - apply NoDup_cons in Hnd as [Hk Hnd]. cbn [fmap list_fmap fst] in Hk.
    assert (Hstep : sweep_step now (m, r) (k, t)
                    = if now - t >? disconnectLimit then (delete k m, r ++ [k])
                      else (m, r)) by reflexivity.
    rewrite Hstep. clear Hstep. cbn [List.filter snd].
    destruct (now - t >? disconnectLimit) eqn:Eold.
    + destruct (IH (delete k m) (r ++ [k]) Hnd) as (I1 & I2 & I3).
      split; [|split].
      * intros p Hp. rewrite I1.
        -- apply lookup_delete_ne. intros ->. apply Hp. left.
        -- intros Hin. apply Hp. right. exact Hin.
      * intros p t' Hin. apply elem_of_cons in Hin as [Heq|Hin].
        -- inversion Heq; subst p t'. rewrite Eold, I1 by exact Hk.
           apply lookup_delete_eq.
        -- rewrite (I2 p t' Hin). destruct (now - t' >? disconnectLimit);
             [reflexivity|]. apply lookup_delete_ne. intros ->. apply Hk.
           apply list_elem_of_fmap. exists (p, t'). split; [reflexivity|exact Hin].
      * rewrite I3. cbn [fmap list_fmap fst]. rewrite <- app_assoc. reflexivity.
    + destruct (IH m r Hnd) as (I1 & I2 & I3).
      split; [|split].
      * intros p Hp. apply I1. intros Hin. apply Hp. right. exact Hin.
      * intros p t' Hin. apply elem_of_cons in Hin as [Heq|Hin].
        -- inversion Heq; subst p t'. rewrite Eold. apply I1. exact Hk.
        -- apply I2. exact Hin.
      * exact I3.
Qed.

(** X23: one tick of [removeOldPeers] removes exactly the peers whose
    disconnect is more than seven days old, each once, from the timestamps
    and from the peer store, and leaves the timestamps of all other peers
    as they were, in whatever order the map is visited. *)
Theorem sweep_removes_exactly_old (now : Z) (pm : PeerMan)
    (order : list (string * Z)) :
  order ≡ₚ map_to_list (disconnects pm) ->
  let pm' := (sweep now pm order).1 in
  let removed := (sweep now pm order).2 in
  (forall p t, disconnects pm' !! p = Some t <->
               disconnects pm !! p = Some t /\ now - t <= disconnectLimit) /\
  (forall p, p ∈ removed <->
             exists t, disconnects pm !! p = Some t /\ disconnectLimit < now - t) /\
  NoDup removed.
Proof.
  intros Hperm pm' removed.
  assert (Hin : forall p t, (p, t) ∈ order <-> disconnects pm !! p = Some t).
  { intros p t. rewrite Hperm. apply elem_of_map_to_list. }
  assert (Hnd : NoDup order.*1).
  { rewrite Hperm. apply NoDup_fst_map_to_list. }
  destruct (sweep_loop_spec now order (disconnects pm) [] Hnd) as (I1 & I2 & I3).
  assert (Hpm : disconnects pm' = (foldl (sweep_step now) (disconnects pm, []) order).1).
  { unfold pm', sweep.
    destruct (foldl (sweep_step now) (disconnects pm, []) order); reflexivity. }
  assert (Hrm : removed = (foldl (sweep_step now) (disconnects pm, []) order).2).
  { unfold removed, sweep.
    destruct (foldl (sweep_step now) (disconnects pm, []) order); reflexivity. }
  rewrite Hpm, Hrm. clear Hpm Hrm. cbn [app] in I3.
  split; [|split].
  - intros p t. destruct (disconnects pm !! p) as [t0|] eqn:E.
    + rewrite (I2 p t0) by (apply Hin; exact E). rewrite E.
      destruct (Z.gtb_spec (now - t0) disconnectLimit) as [Hold|Hyoung].
      * split; [discriminate|]. intros [Heq Hle]. inversion Heq; subst. lia.
      * split; [intros Heq; inversion Heq; subst; split; [reflexivity|lia]|].
        intros [Heq _]. exact Heq.
    + rewrite I1.
      * rewrite E. split; [discriminate|]. intros [Heq _]. discriminate.
      * intros Hk. apply list_elem_of_fmap in Hk as ([q t0] & -> & Hq).
        apply Hin in Hq. cbn [fst] in E. congruence.
  - intros p. rewrite I3. rewrite list_elem_of_fmap. split.
    + intros ([q t] & -> & Hq). apply list_elem_of_In, filter_In in Hq as [Hq Hold].
      cbn [fst snd] in *. exists t. split.
      * apply Hin, list_elem_of_In. exact Hq.
      * apply Z.gtb_lt in Hold. lia.
    + intros (t & Hl & Hold). exists (p, t). split; [reflexivity|].
      apply list_elem_of_In, filter_In. split.
      * apply list_elem_of_In, Hin. exact Hl.
      * cbn [snd]. apply Z.gtb_lt. lia.
  - rewrite I3. clear -Hnd. induction order as [|[k t] l IH]; cbn [List.filter].
    + constructor.
    + cbn [fmap list_fmap fst] in Hnd. apply NoDup_cons in Hnd as [Hk Hnd].
      destruct (now - (k, t).2 >? disconnectLimit); [|apply IH; exact Hnd].
      cbn [fmap list_fmap fst]. apply NoDup_cons. split; [|apply IH; exact Hnd].
      intros Hin. apply Hk. apply list_elem_of_fmap in Hin as (e & He & Hin).
      apply list_elem_of_fmap. exists e. split; [exact He|].
      apply list_elem_of_In. apply list_elem_of_In, filter_In in Hin. tauto.
Qed.

End DisconnectTimestamps.

Section SweepWitness.
Import Peers.

Lemma sweep_removes_exactly_old_witness :
  let pm := mkPeerMan {[ "a"%string := 0 ]} in
  let now := disconnectLimit + 1 in
  disconnects (sweep now pm (map_to_list (disconnects pm))).1 !! "a"%string = Some 0
  <-> disconnects pm !! "a"%string = Some 0 /\ now - 0 <= disconnectLimit.
Proof.
  intros pm now.
  destruct (sweep_removes_exactly_old now pm (map_to_list (disconnects pm)))
    as [Hk _].
  - reflexivity.
  - exact (Hk "a"%string 0).
Defined.

End SweepWitness.

Section KnownPeersFacts.
Import Peers.

Lemma ConnectedPeers_loop_spec h ids acc :
  ConnectedPeers_loop h ids acc
  = acc ++ omap (fun id => if bool_decide (id = self h) then None else peerInfo h id) ids.
Proof.
  revert acc. induction ids as [|id ids IH]; intros acc; cbn [ConnectedPeers_loop omap list_omap].
  - rewrite app_nil_r. reflexivity.
  - destruct (bool_decide (id = self h)); [apply IH|].
    destruct (peerInfo h id) as [info|]; [|apply IH].
    rewrite IH, <- app_assoc. reflexivity.
Qed.

Lemma KnownPeers_loop_spec h cm ids peers disconnected :
  KnownPeers_loop h cm ids peers disconnected
  = let found := omap (fun id =>
                   if bool_decide (id = self h) then None
                   else if default false (cm !! id) then None
                   else peerInfo h id) ids in
    (peers ++ found, disconnected ++ found).
Proof.
  revert peers disconnected. induction ids as [|id ids IH]; intros peers disconnected;
    cbn [KnownPeers_loop omap list_omap].
  - rewrite !app_nil_r. reflexivity.
  - destruct (bool_decide (id = self h)); [apply IH|].
    destruct (default false (cm !! id)); [apply IH|].
    destruct (peerInfo h id) as [info|]; [|apply IH].
    rewrite IH. cbv zeta. rewrite <- !app_assoc. reflexivity.
Qed.

Lemma connected_fold_spec (peers : list PeerInfo) (m : gmap string bool)
    (c : list PeerInfo) :
  let st := foldl (fun (st : gmap string bool * list PeerInfo) info =>
                     (<[ID info := true]> st.1, st.2 ++ [info])) (m, c) peers in
  st.2 = c ++ peers /\
  forall id, default false (st.1 !! id)
             = bool_decide (id ∈ ID <$> peers) || default false (m !! id).
Proof.
  revert m c. induction peers as [|info peers IH]; intros m c; cbn [foldl].
  - cbn [fst snd]. rewrite app_nil_r. split; [reflexivity|].
    intros id. rewrite bool_decide_eq_false_2 by (intros Hin; inversion Hin).
    reflexivity.
  - cbn [fst snd]. destruct (IH (<[ID info := true]> m) (c ++ [info])) as [Hc Hm].
    cbv zeta in *. split; [rewrite Hc, <- app_assoc; reflexivity|].
    intros id. rewrite Hm. cbn [fmap list_fmap].
    destruct (decide (ID info = id)) as [<-|Hne].
    + rewrite lookup_insert_eq. cbn [default].
      rewrite (bool_decide_eq_true_2 (ID info ∈ ID info :: _)) by left.
      rewrite orb_true_r. reflexivity.
    + rewrite lookup_insert_ne by exact Hne.
      f_equal. apply bool_decide_ext. split.
      * intros Hin. right. exact Hin.
      * intros Hin. apply elem_of_cons in Hin as [Heq|Hin]; [congruence|exact Hin].
Qed.

Lemma peerInfo_Some h id info :
  peerInfo h id = Some info ->
  ID info = id /\ Addrs info = ps_Addrs h id /\ Addrs info <> [].
Proof.
  unfold peerInfo. destruct (Nat.eqb_spec (length (ps_Addrs h id)) 0) as [|Hn];
    [discriminate|].
  destruct (ps_GetProtocols h id); [|discriminate].
  intros Heq. inversion Heq; subst. cbn [ID Addrs]. repeat split.
  intros Hnil. apply Hn. rewrite Hnil. reflexivity.
Qed.

(** X24: [KnownPeers] returns the connected peers followed by the
    disconnected ones.  The host itself is never listed; every peer listed
    has at least one address in the peer store; the connected ones are
    what [ConnectedPeers] returns and come from the network's peers; the
    disconnected ones come from the peer store and are never among the
    connected. *)
Theorem KnownPeers_partition (h : Host) :
  let '(all, connected, disconnected) := KnownPeers h in
  all = connected ++ disconnected /\
  connected = ConnectedPeers h /\
  (forall info, info ∈ all ->
     ID info <> self h /\ Addrs info <> [] /\ peerInfo h (ID info) = Some info) /\
  (forall info, info ∈ connected -> ID info ∈ network_Peers h) /\
  (forall info, info ∈ disconnected ->
     ID info ∈ ps_Peers h /\ ID info ∉ ID <$> connected).
Proof.
  unfold KnownPeers.
  pose proof (connected_fold_spec (ConnectedPeers h) ∅ []) as Hfold.
  cbv zeta in Hfold. revert Hfold.
  destruct (foldl _ (∅, []) (ConnectedPeers h)) as [cm connected].
  cbn [fst snd app]. intros [Hc Hm]. subst connected.
  rewrite KnownPeers_loop_spec. cbv zeta. cbn [app].
  set (found := omap _ (ps_Peers h)).
  assert (Hconn : forall info, info ∈ ConnectedPeers h ->
            ID info <> self h /\ peerInfo h (ID info) = Some info /\
            ID info ∈ network_Peers h).
  { intros info Hin. unfold ConnectedPeers in Hin.
    rewrite ConnectedPeers_loop_spec in Hin. cbn [app] in Hin.
    apply list_elem_of_omap in Hin as (id & Hid & Hi).
    case_bool_decide as Hself; [discriminate|].
    destruct (peerInfo_Some h id info Hi) as (-> & _ & _). auto. }
  assert (Hfound : forall info, info ∈ found ->
            ID info <> self h /\ peerInfo h (ID info) = Some info /\
            ID info ∈ ps_Peers h /\ ID info ∉ ID <$> ConnectedPeers h).
  { intros info Hin. unfold found in Hin.
    apply list_elem_of_omap in Hin as (id & Hid & Hi).
    case_bool_decide as Hself; [discriminate|].
    destruct (default false (cm !! id)) eqn:Ecm; [discriminate|].
    destruct (peerInfo_Some h id info Hi) as (-> & _ & _).
    repeat split; try assumption.
    intros Hin. rewrite Hm in Ecm.
    rewrite (bool_decide_eq_true_2 _ Hin) in Ecm. discriminate. }
  split; [reflexivity|]. split; [reflexivity|]. split; [|split].
  - intros info Hin. apply elem_of_app in Hin as [Hin|Hin].
    + destruct (Hconn info Hin) as (Hs & Hp & _).
      destruct (peerInfo_Some h _ info Hp) as (_ & _ & Ha). auto.
    + destruct (Hfound info Hin) as (Hs & Hp & _).
      destruct (peerInfo_Some h _ info Hp) as (_ & _ & Ha). auto.
  - intros info Hin. apply Hconn. exact Hin.
  - intros info Hin. destruct (Hfound info Hin) as (_ & _ & Hps & Hnc). auto.
Qed.

End KnownPeersFacts.

(** ** The dataset pipeline: where a failure leaves the module *)

Section DatasetFailures.
Import Datasets.
Context {Schema Args A E : Type}.
Context `{Pricer Schema Args} `{AccountStore A} `{Engine Schema Args E}.

Lemma compareAndSpend_refused (u : DatasetModule A E) price tx e :
  price <= Fee (Body tx) ->
  (store_Spend (accountStore u)
     (mkSpend (Sender tx) price (int64 (Nonce (Body tx))))).2 = Some e ->
  compareAndSpend u price tx
  = (mkModule
       (store_Spend (accountStore u)
          (mkSpend (Sender tx) price (int64 (Nonce (Body tx))))).1
       (spends u ++ [mkSpend (Sender tx) price (int64 (Nonce (Body tx)))])
       (engine u), Some e).
Proof.
  intros Hge He. destruct (compareAndSpend_enough u price tx Hge) as [Hc _].
  rewrite Hc. unfold call_Spend.
  destruct (store_Spend _ _) as [a err]. cbn [fst snd] in *. subst err. reflexivity.
Qed.


(** X25: in [Deploy], [Drop] and [Execute] a failure before the engine is
    reached leaves the engine alone.  If pricing fails the module is not
    touched at all and the [Fee] of the response is the price the pricer
    returned, or 0 when it returned none.  If the account store refuses the
    spend, the call ends with the store's own error, the engine as it was,
    the one [Spend] call on record and the price as the [Fee] of the
    response. *)
Theorem failure_before_engine (u : DatasetModule A E) (tx : Transaction) :
  let sp := fun price => mkSpend (Sender tx) price (int64 (Nonce (Body tx))) in
  let unpriced :=
    fun (price : option Z) err
        (r : DatasetModule A E * ExecutionResponse * option error) =>
    r.1.1 = u /\ r.2 = Some err /\ GasUsed r.1.2 = 0 /\
    RespFee r.1.2 = match price with Some p => p | None => 0 end in
  let refused := fun price e (r : DatasetModule A E * ExecutionResponse * option error) =>
    r = (mkModule (store_Spend (accountStore u) (sp price)).1
           (spends u ++ [sp price]) (engine u), mkResp price 0, Some e) in
  (forall schema,
     match PriceDeploy schema with
     | inr (price, err) => unpriced price err (Deploy u schema tx)
     | inl price =>
         forall e, price <= Fee (Body tx) ->
           (store_Spend (accountStore u) (sp price)).2 = Some e ->
           refused price e (Deploy u schema tx)
     end) /\
  (forall dbid,
     match PriceDrop dbid with
     | inr (price, err) => unpriced price err (Drop u dbid tx)
     | inl price =>
         forall e, price <= Fee (Body tx) ->
           (store_Spend (accountStore u) (sp price)).2 = Some e ->
           refused price e (Drop u dbid tx)
     end) /\
  (forall dbid action args,
     match PriceExecute dbid action args with
     | inr (price, err) => unpriced price err (Execute u dbid action args tx)
     | inl price =>
         forall e, price <= Fee (Body tx) ->
           (store_Spend (accountStore u) (sp price)).2 = Some e ->
           refused price e (Execute u dbid action args tx)
     end).
Proof.
  intros sp unpriced refused. unfold unpriced, refused, sp. split; [|split].
  - intros schema. unfold Deploy. destruct (PriceDeploy schema) as [price|[price err]].
    + intros e Hge He. rewrite (compareAndSpend_refused u price tx e Hge He).
      reflexivity.
    + destruct price; cbn; repeat split.
  - intros dbid. unfold Drop. destruct (PriceDrop dbid) as [price|[price err]].
    + intros e Hge He. rewrite (compareAndSpend_refused u price tx e Hge He).
      reflexivity.
    + destruct price; cbn; repeat split.
  - intros dbid action args. unfold Execute.
    destruct (PriceExecute dbid action args) as [price|[price err]].
    + intros e Hge He. rewrite (compareAndSpend_refused u price tx e Hge He).
      reflexivity.
    + destruct price; cbn; repeat split.
Qed.


End DatasetFailures.

Section DatasetFailureWitnesses.
Import Datasets Fixture.

Lemma failure_before_engine_witness :
  let u := mkModule 2 [] tt in
  let tx := exampleTx 7 in
  @Execute _ _ _ _ examplePricer exampleAccounts exampleEngine u "db" "act" tt tx
  = (mkModule 2 [mkSpend [x41] 3 1] tt, mkResp 3 0,
     Some (External "insufficient balance")).
Proof.
  intros u tx.
  destruct (@failure_before_engine _ _ _ _ examplePricer exampleAccounts
              exampleEngine u tx) as (_ & _ & He).
  apply (He "db"%string "act"%string tt).
  - vm_compute. discriminate.
  - reflexivity.
Defined.


End DatasetFailureWitnesses.

Section MoreWitnesses.
Import Peers.

Lemma request_outcomes_witness :
  (request (mkRW None (NewReader [x00])) [x01] 10).1 = [] /\
  exists err, (request (mkRW None (NewReader [x00])) [x01] 10).2 = Some err /\
              Is err ErrNotFound = true.
Proof.
  destruct (request_outcomes [x00] [x01] 10) as (_ & _ & He & _).
  destruct (request (mkRW None (NewReader [x00])) [x01] 10) as [body [err|]] eqn:E.
  - destruct (He err eq_refl) as (Hb & Hnf & _). split; [exact Hb|].
    exists err. split; [reflexivity|]. apply Hnf. reflexivity.
  - vm_compute in E. discriminate.
Defined.

Lemma KnownPeers_partition_witness :
  let h := mkHost "me" ["me"; "a"]%string ["a"; "b"; "c"]%string
             (fun id => if String.eqb id "c" then [] else ["/ip4/1.2.3.4"%string])
             (fun _ => inl []) in
  (KnownPeers h).1.1 = (KnownPeers h).1.2 ++ (KnownPeers h).2.
Proof.
  intros h. pose proof (KnownPeers_partition h) as Hk.
  destruct (KnownPeers h) as [[all connected] disconnected].
  destruct Hk as [Hall _]. exact Hall.
Defined.

End MoreWitnesses.
